(** * er-savepatcher: the save buffer model of [src/savefile.cpp] and the
    command line of [src/arguments.h]

    A shallow embedding of [savepatcher::SaveFile]: the byte buffers are
    [list u8], a thrown [exception] is an [Err] result, the methods that
    mutate [patchedSaveData] are computations in a small state-and-error
    monad, and the two streams of [<fstream>] act on a finite map from
    paths to file contents.  [savepatcher::arguments::ArgumentParser] is
    embedded with its state passed explicitly and the message of a thrown
    exception as a string. *)

From Stdlib Require Import ZArith Lia List Ascii String.
From stdpp Require Import base list strings gmap pretty.
From coqutil Require Import Byte Word.LittleEndianList.
Import ListNotations.

Local Open Scope Z_scope.

(** ** Machine integers *)

Abbreviation u8 := byte.

Definition u64_max : Z := 2 ^ 64.

Definition is_u64 (x : Z) : Prop := 0 <= x < u64_max.

(** The implicit conversion of an unsigned value to [u8] keeps the low
    eight bits. *)
Definition to_u8 (z : Z) : u8 := byte.of_Z z.

#[global] Instance u8_eq_dec : EqDecision u8.
Proof.
  intros a b. destruct (decide (byte.unsigned a = byte.unsigned b)) as [E|E].
  - left. now apply byte.unsigned_inj.
  - right. intros ->. now apply E.
Defined.

(** ** Exceptions and results *)

(** [util.h] has one exception class whose message is formatted at the
    throw site; the constructors are the error kinds the messages fall
    into, each carrying the formatted argument where there is one. *)
Inductive exception : Type :=
| IOError (filename : string)      (* Could not open file '{}' *)
| FormatError (target : string)    (* {} is not a valid Elden Ring save file. *)
| NoOpError (message : string)     (* ... is already correct *)
| NotFound                         (* Could not find active slot index *)
| OutOfRange.                      (* a Section that does not fit the buffer *)

Inductive result (A : Type) : Type :=
| Ok (a : A)
| Err (e : exception).
Arguments Ok {A} a.
Arguments Err {A} e.

Definition result_bind {A B} (m : result A) (k : A -> result B) : result B :=
  match m with
  | Ok a => k a
  | Err e => Err e
  end.

Notation "x <- m ;; k" := (result_bind m (fun x => k))
  (at level 100, m at next level, right associativity).

(** A method that may throw and may mutate the object it runs on: the state
    after a throw is the state at the throw. *)
Definition M (S A : Type) : Type := S -> result A * S.

Definition ret {S A} (a : A) : M S A := fun s => (Ok a, s).
Definition throw {S A} (e : exception) : M S A := fun s => (Err e, s).
Definition get {S} : M S S := fun s => (Ok s, s).
Definition put {S} (s' : S) : M S unit := fun _ => (Ok tt, s').
Definition lift {S A} (r : result A) : M S A := fun s => (r, s).

Definition bind {S A B} (m : M S A) (k : A -> M S B) : M S B :=
  fun s => match m s with
           | (Ok a, s') => k a s'
           | (Err e, s') => (Err e, s')
           end.

Notation "x <~ m ;; k" := (bind m (fun x => k))
  (at level 100, m at next level, right associativity).
Notation "m ;;; k" := (bind m (fun _ => k))
  (at level 100, right associativity).

(** ** Section descriptors *)

(** A (offset, size) range of the save file. *)
Record SectionRange : Type := mkSection {
  sec_offset : nat;
  sec_size : nat
}.

Definition in_section (s : SectionRange) (i : nat) : Prop :=
  (sec_offset s <= i < sec_offset s + sec_size s)%nat.

Definition fits (s : SectionRange) (data : list u8) : Prop :=
  (sec_offset s + sec_size s <= length data)%nat.

#[global] Instance fits_dec s data : Decision (fits s data).
Proof. unfold fits. apply _. Defined.

#[global] Instance in_section_dec s i : Decision (in_section s i).
Proof. unfold in_section. apply _. Defined.

(** Modelled from the spec: [Section::bytesFrom] of [savefile.h], which is
    not among the sources.  The view of [sec_size] bytes that starts at
    [sec_offset]; a range that exceeds the buffer is refused. *)
Definition bytesFrom (s : SectionRange) (data : list u8) : result (list u8) :=
  if decide (fits s data)
  then Ok (take (sec_size s) (drop (sec_offset s) data))
  else Err OutOfRange.

(** Trailing NUL padding of a character field. *)
Definition trim_padding (bytes : list u8) : list u8 :=
  fold_right
    (fun b rest =>
       match rest with
       | [] => if decide (b = Byte.x00) then [] else [b]
       | _ :: _ => b :: rest
       end)
    [] bytes.

(** Modelled from the spec: [Section::charsFrom] of [savefile.h].  The view
    as text, without its trailing padding. *)
Definition charsFrom (s : SectionRange) (data : list u8) : result string :=
  bytes <- bytesFrom s data ;;
  Ok (string_of_list_byte (trim_padding bytes)).

(** Modelled from the spec: [Section::castInteger<T>] of [savefile.h], with
    [width] for [sizeof(T)].  The view read as a little-endian integer of
    [width] bytes. *)
Definition castInteger (width : nat) (s : SectionRange) (data : list u8)
  : result Z :=
  bytes <- bytesFrom s data ;;
  Ok (le_combine bytes mod 2 ^ (8 * Z.of_nat width)).

(** Modelled from the spec: [Section::replace] of [savefile.h].  The bytes
    of [newSection] are copied over the range, in place: element [i] of
    [newSection] lands at index [sec_offset + i], and an index past the end
    of the buffer is not written. *)
Definition replace (s : SectionRange) (data newSection : list u8) : list u8 :=
  list_inserts (sec_offset s) (take (sec_size s) newSection) data.

(** ** Checksum engine ([util.h]) *)

Module MD5.

Definition w32 (z : Z) : Z := z mod 2 ^ 32.

Definition rotl32 (x c : Z) : Z :=
  w32 (Z.lor (Z.shiftl x c) (Z.shiftr x (32 - c))).

Definition not32 (x : Z) : Z := Z.lxor x 0xffffffff.

Definition shifts : list Z :=
  [ 7; 12; 17; 22;  7; 12; 17; 22;  7; 12; 17; 22;  7; 12; 17; 22;
    5;  9; 14; 20;  5;  9; 14; 20;  5;  9; 14; 20;  5;  9; 14; 20;
    4; 11; 16; 23;  4; 11; 16; 23;  4; 11; 16; 23;  4; 11; 16; 23;
    6; 10; 15; 21;  6; 10; 15; 21;  6; 10; 15; 21;  6; 10; 15; 21 ].

(** [floor (2^32 * abs (sin (i + 1)))] for [i] from 0 to 63. *)
Definition sines : list Z :=
  [ 0xd76aa478; 0xe8c7b756; 0x242070db; 0xc1bdceee;
    0xf57c0faf; 0x4787c62a; 0xa8304613; 0xfd469501;
    0x698098d8; 0x8b44f7af; 0xffff5bb1; 0x895cd7be;
    0x6b901122; 0xfd987193; 0xa679438e; 0x49b40821;
    0xf61e2562; 0xc040b340; 0x265e5a51; 0xe9b6c7aa;
    0xd62f105d; 0x02441453; 0xd8a1e681; 0xe7d3fbc8;
    0x21e1cde6; 0xc33707d6; 0xf4d50d87; 0x455a14ed;
    0xa9e3e905; 0xfcefa3f8; 0x676f02d9; 0x8d2a4c8a;
    0xfffa3942; 0x8771f681; 0x6d9d6122; 0xfde5380c;
    0xa4beea44; 0x4bdecfa9; 0xf6bb4b60; 0xbebfbc70;
    0x289b7ec6; 0xeaa127fa; 0xd4ef3085; 0x04881d05;
    0xd9d4d039; 0xe6db99e5; 0x1fa27cf8; 0xc4ac5665;
    0xf4292244; 0x432aff97; 0xab9423a7; 0xfc93a039;
    0x655b59c3; 0x8f0ccc92; 0xffeff47d; 0x85845dd1;
    0x6fa87e4f; 0xfe2ce6e0; 0xa3014314; 0x4e0811a1;
    0xf7537e82; 0xbd3af235; 0x2ad7d2bb; 0xeb86d391 ].

Record state : Type := mkState { sa : Z; sb : Z; sc : Z; sd : Z }.

Definition init : state :=
  mkState 0x67452301 0xefcdab89 0x98badcfe 0x10325476.

(** The message, a single 1 bit, zeros up to 56 modulo 64 bytes, and the
    length in bits as a 64-bit little-endian integer. *)
Definition pad (msg : list u8) : list u8 :=
  let n := length msg in
  msg ++ [Byte.x80] ++ repeat Byte.x00 ((119 - n `mod` 64) `mod` 64)%nat
      ++ le_split 8 (8 * Z.of_nat n).

(** The sixteen little-endian words of block [i]. *)
Definition block_words (padded : list u8) (i : nat) : list Z :=
  map (fun j => le_combine (take 4 (drop (64 * i + 4 * j) padded)))
      (seq 0 16).

Definition round (words : list Z) (st : state) (i : nat) : state :=
  let '(mkState a b c d) := st in
  let f :=
    if (i <? 16)%nat then Z.lor (Z.land b c) (Z.land (not32 b) d)
    else if (i <? 32)%nat then Z.lor (Z.land d b) (Z.land (not32 d) c)
    else if (i <? 48)%nat then Z.lxor b (Z.lxor c d)
    else Z.lxor c (Z.lor b (not32 d)) in
  let g :=
    if (i <? 16)%nat then i
    else if (i <? 32)%nat then ((5 * i + 1) `mod` 16)%nat
    else if (i <? 48)%nat then ((3 * i + 5) `mod` 16)%nat
    else ((7 * i) `mod` 16)%nat in
  let f' := w32 (f + a + nth i sines 0 + nth g words 0) in
  mkState d (w32 (b + rotl32 f' (nth i shifts 0))) b c.

Definition compress (padded : list u8) (st : state) (i : nat) : state :=
  let st' := fold_left (round (block_words padded i)) (seq 0 64) st in
  mkState (w32 (sa st + sa st')) (w32 (sb st + sb st'))
          (w32 (sc st + sc st')) (w32 (sd st + sd st')).

Definition digest (msg : list u8) : list u8 :=
  let padded := pad msg in
  let st := fold_left (compress padded) (seq 0 (length padded / 64)) init in
  le_split 4 (sa st) ++ le_split 4 (sb st)
    ++ le_split 4 (sc st) ++ le_split 4 (sd st).

End MD5.

(** Modelled from the spec: [GenerateMd5] of [util.h], which is not among
    the sources: the standard MD5 digest (RFC 1321) of the bytes, sixteen
    bytes long. *)
Definition GenerateMd5 (input : list u8) : list u8 := MD5.digest input.

Definition hex_digit (n : Z) : ascii :=
  nth (Z.to_nat n) (list_ascii_of_string "0123456789abcdef") "0"%char.

(** Modelled from the spec: [FormatHex] of [util.h]: two lowercase
    hexadecimal digits for each byte, in order. *)
Definition FormatHex (bytes : list u8) : string :=
  fold_right
    (fun b rest =>
       String (hex_digit (byte.unsigned b / 16))
              (String (hex_digit (byte.unsigned b mod 16)) rest))
    EmptyString bytes.

(** ** The layout of the save file ([savefile.h]) *)

(** The Section constants and [SaveFileSize] are declared in [savefile.h],
    which is not among the sources: the numbers the spec does not give are
    the fields of a [Layout]. *)
Record Layout : Type := mkLayout {
  SaveFileSize : nat;
  SaveHeaderSection : SectionRange;
  SaveHeaderChecksumOffset : nat;
  SteamIdOffset : nat;
  ActiveSection : SectionRange
}.

(** Modelled from the spec: the magic tag is the first three bytes. *)
Definition HeaderBNDSection : SectionRange := mkSection 0 3.

(** Modelled from the spec: the checksum field is sixteen bytes wide. *)
Definition SaveHeaderChecksumSection (L : Layout) : SectionRange :=
  mkSection (SaveHeaderChecksumOffset L) 16.

(** Modelled from the spec: the owner identifier is eight bytes wide. *)
Definition SteamIdSection (L : Layout) : SectionRange :=
  mkSection (SteamIdOffset L) 8.

(** Two ranges that share no index. *)
Definition sections_disjoint (s t : SectionRange) : Prop :=
  (sec_offset s + sec_size s <= sec_offset t)%nat
  \/ (sec_offset t + sec_size t <= sec_offset s)%nat.

(** The checksum field lies outside the bytes it is the digest of. *)
Definition checksum_outside_header (L : Layout) : Prop :=
  sections_disjoint (SaveHeaderChecksumSection L) (SaveHeaderSection L).

(** The magic tag as bytes. *)
Definition magic_tag : list u8 := list_byte_of_string "BND".

(** [sizeof(true)], the value [std::find] looks for among the flags. *)
Definition sizeof_bool : Z := 1.

(** ** The save file object *)

Record SaveFile : Type := mkSaveFile {
  originalSaveData : list u8;   (* the bytes as loaded, never written *)
  patchedSaveData : list u8;    (* the working copy *)
  activeSlotIndex : nat         (* set by the constructor *)
}.

Definition set_patchedSaveData (data : list u8) (this : SaveFile) : SaveFile :=
  mkSaveFile (originalSaveData this) data (activeSlotIndex this).

(** Modelled from the spec: the buffer an accessor reads when it is called
    without one.  The default is declared in [savefile.h], which is not
    among the sources; the stored checksum and the current owner identifier
    of the spec are those of the working copy. *)
Definition default_data (this : SaveFile) : list u8 := patchedSaveData this.

(** ** The file system seen through [<fstream>]

    A file is known by the text of its path: two spellings of one path
    are two keys, so nothing is stated about a file under another
    spelling than the one a call was given. *)

Record FileSystem : Type := mkFileSystem {
  files : gmap string (list u8);   (* contents of the existing files *)
  unwritable : gset string         (* paths that cannot be opened for output *)
}.

(** [std::ofstream file(filename, std::ios::out | std::ios::binary)]: the
    file is created, or emptied when it exists; the result is [is_open]. *)
Definition ofstream_open (filename : string) : M FileSystem bool :=
  fun fs =>
    if decide (filename ∈ unwritable fs) then (Ok false, fs)
    else (Ok true, mkFileSystem (<[filename := []]> (files fs)) (unwritable fs)).

(** [file.write(data, size)] on an open stream appends to the file;
    [file.close()] leaves the contents as they are. *)
Definition ofstream_write (filename : string) (data : list u8)
  : M FileSystem unit :=
  fun fs =>
    (Ok tt,
     mkFileSystem
       (<[filename := default [] (files fs !! filename) ++ data]> (files fs))
       (unwritable fs)).

Section Methods.

Context (L : Layout).

(** [SaveFile::validateData], savefile.cpp:10. *)
Definition validateData (data : list u8) (target : string) : result unit :=
  magic <- charsFrom HeaderBNDSection data ;;
  if bool_decide (magic ≠ "BND"%string)
     || bool_decide (length data ≠ SaveFileSize L)
  then Err (FormatError target)
  else Ok tt.


(** [SaveFile::write], savefile.cpp:26. *)
Definition write (this : SaveFile) (filename : string) : M FileSystem unit :=
  is_open <~ ofstream_open filename ;;
  lift (validateData (patchedSaveData this) "Generated data") ;;;
  if negb is_open then throw (IOError filename)
  else ofstream_write filename (patchedSaveData this).

(** [SaveFile::getActiveSlotIndex], savefile.cpp:36. *)
Definition getActiveSlotIndex (data : list u8) : result nat :=
  section <- bytesFrom (ActiveSection L) data ;;
  match list_find (fun b => byte.unsigned b = sizeof_bool) section with
  | None => Err NotFound
  | Some (found, _) => Ok found
  end.

(** [SaveFile::checksum], savefile.cpp:70. *)
Definition checksum (data : list u8) : result string :=
  bytes <- bytesFrom (SaveHeaderChecksumSection L) data ;;
  Ok (FormatHex bytes).

(** [SaveFile::activeSlot], savefile.cpp:82. *)
Definition activeSlot (this : SaveFile) (data : list u8) : nat :=
  activeSlotIndex this.

(** [SaveFile::steamId], savefile.cpp:86. *)
Definition steamId (data : list u8) : result Z :=
  castInteger 8 (SteamIdSection L) data.

(** [SaveFile::recalculateChecksum], savefile.cpp:45. *)
Definition recalculateChecksum : M SaveFile string :=
  this <~ get ;;
  header <~ lift (bytesFrom (SaveHeaderSection L) (patchedSaveData this)) ;;
  let saveHeaderChecksum := GenerateMd5 header in
  let saveHeaderChecksumString := FormatHex saveHeaderChecksum in
  stored <~ lift (checksum (default_data this)) ;;
  if decide (stored = saveHeaderChecksumString)
  then throw (NoOpError "Save header checksum is already correct")
  else
    put (set_patchedSaveData
           (replace (SaveHeaderChecksumSection L) (patchedSaveData this)
                    saveHeaderChecksum)
           this) ;;;
    ret saveHeaderChecksumString.

(** The loop of savefile.cpp:64: byte [i] is [inputSteamId >> (i * 8)]. *)
Definition newSteamIdBytes (inputSteamId : Z) : list u8 :=
  map (fun i => to_u8 (Z.shiftr inputSteamId (Z.of_nat i * 8)))
      (seq 0 (sec_size (SteamIdSection L))).

(** [SaveFile::replaceSteamId], savefile.cpp:57. *)
Definition replaceSteamId (inputSteamId : Z) : M SaveFile unit :=
  this <~ get ;;
  current <~ lift (steamId (default_data this)) ;;
  if decide (current = inputSteamId)
  then throw (NoOpError "Steam ID is already correct")
  else
    put (set_patchedSaveData
           (replace (SteamIdSection L) (patchedSaveData this)
                    (newSteamIdBytes inputSteamId))
           this).

End Methods.

(** ** A small save file

    A layout of 48 bytes for running the methods: the tag, the checksum
    field at 8, the hashed header at 24 with the owner identifier at 28
    inside it, four slot flags at 40. *)

Definition bytes_of_Zs (l : list Z) : list u8 := map to_u8 l.

Definition small_layout : Layout :=
  mkLayout 48 (mkSection 24 16) 8 28 (mkSection 40 4).

Definition small_steam_id : Z := 76561197960287930.

Definition small_data : list u8 :=
  list_byte_of_string "BND" ++ replicate 5 Byte.x00
    ++ replicate 16 Byte.x00
    ++ bytes_of_Zs [1; 2; 3; 4] ++ le_split 8 small_steam_id
    ++ bytes_of_Zs [5; 6; 7; 8]
    ++ bytes_of_Zs [0; 0; 1; 0] ++ replicate 4 Byte.x00.

Definition small_save : SaveFile := mkSaveFile small_data small_data 2.

(** The small save file with one byte too many in its working copy. *)
Definition oversized_save : SaveFile :=
  mkSaveFile small_data (small_data ++ [Byte.x00]) 2.

Definition small_fs : FileSystem :=
  mkFileSystem {[ "out.sl2"%string := bytes_of_Zs [1; 2; 3] ]} ∅.

(** ** The command line ([src/arguments.h]) *)

Module arguments.

(** A call either returns or throws the [exception] of [util.h], whose
    message is the text formatted at the throw site. *)
Inductive outcome (A : Type) : Type :=
| Returned (a : A)
| Thrown (message : string).
Arguments Returned {A} a.
Arguments Thrown {A} message.

(** The types [T] the parser has a [parse] overload for. *)
Inductive ArgType : Type := TInt | TBool | TStringView | TPath.

#[global] Instance ArgType_eq_dec : EqDecision ArgType.
Proof. solve_decision. Defined.

(** [int] is 32 bits wide; a [std::filesystem::path] is its native text. *)
Definition value_type (t : ArgType) : Type :=
  match t with
  | TInt => Z
  | TBool => bool
  | TStringView => string
  | TPath => string
  end.

(** [T value{}]. *)
Definition value_init (t : ArgType) : value_type t :=
  match t with
  | TInt => 0
  | TBool => false
  | TStringView => EmptyString
  | TPath => EmptyString
  end.

(** [struct Argument<T>], arguments.h:19. *)
Record Argument (t : ArgType) : Type := mkArgument {
  name : string;
  description : string;
  briefDescription : string;
  set : bool;
  value : value_type t
}.
Arguments mkArgument {t}.
Arguments name {t}.
Arguments description {t}.
Arguments briefDescription {t}.
Arguments set {t}.
Arguments value {t}.

(** The constructors of arguments.h:26-29; the one with three strings
    takes the brief description before the full one. *)
Definition Argument0 (t : ArgType) : Argument t :=
  mkArgument EmptyString EmptyString EmptyString false (value_init t).
Definition Argument1 (t : ArgType) (name : string) : Argument t :=
  mkArgument name EmptyString EmptyString false (value_init t).
Definition Argument2 (t : ArgType) (name description : string) : Argument t :=
  mkArgument name description EmptyString false (value_init t).
Definition Argument3 (t : ArgType) (name briefDescription description : string)
  : Argument t :=
  mkArgument name description briefDescription false (value_init t).

Definition with_value {t} (v : value_type t) (arg : Argument t) : Argument t :=
  mkArgument (name arg) (description arg) (briefDescription arg) (set arg) v.

Definition with_set {t} (b : bool) (arg : Argument t) : Argument t :=
  mkArgument (name arg) (description arg) (briefDescription arg) b (value arg).

(** An element of [argumentContainer]: a pointer to the base class, behind
    which is an [Argument<T>] of some [T]. *)
Definition Entry : Type := { t : ArgType & Argument t }.

Definition entry_name (e : Entry) : string := name (projT2 e).

(** [class ArgumentParser], arguments.h:35. *)
Record ArgumentParser : Type := mkParser {
  rawArguments : list string;
  argumentContainer : list Entry;
  programName : string;
  briefUsageDescription : string;
  usageDescription : string
}.

(** The constructor, arguments.h:85, on the [argc] strings of [argv];
    [argv] has its first element, the program's name. *)
Definition ArgumentParser_new (argv : list string) : ArgumentParser :=
  mkParser argv [] (default EmptyString (head argv)) EmptyString EmptyString.

(** [isArgued], arguments.h:46. *)
Definition isArgued (raw : list string) (argumentName : string) : bool :=
  match list_find (fun a => a = argumentName) raw with
  | None => false
  | Some _ => true
  end.

(** [std::distance(begin, std::find(begin, end, argumentName))]. *)
Definition find_distance (raw : list string) (argumentName : string) : nat :=
  match list_find (fun a => a = argumentName) raw with
  | None => length raw
  | Some (i, _) => i
  end.

(** [getNextArgument], arguments.h:53. *)
Definition getNextArgument (raw : list string) (argumentName : string)
  : outcome string :=
  let nextArgPos := (find_distance raw argumentName + 1)%nat in
  if decide (length raw <= nextArgPos)%nat
  then Thrown ("Missing argument value for '" +:+ argumentName +:+ "'")
  else Returned (raw !!! nextArgPos).

(** *** [std::stoi] on a C string *)

(** [isspace] in the C locale. *)
Definition isspace (c : ascii) : bool :=
  let n := nat_of_ascii c in
  (n =? 32)%nat || ((9 <=? n)%nat && (n <=? 13)%nat).

Definition digit_value (c : ascii) : option Z :=
  let n := nat_of_ascii c in
  if ((48 <=? n)%nat && (n <=? 57)%nat)%bool
  then Some (Z.of_nat n - 48)
  else None.

Fixpoint skip_space (s : string) : string :=
  match s with
  | String c rest => if isspace c then skip_space rest else s
  | EmptyString => EmptyString
  end.

(** The digits at the front of [s], most significant first. *)
Fixpoint leading_digits (s : string) : list Z :=
  match s with
  | String c rest =>
      match digit_value c with
      | Some d => d :: leading_digits rest
      | None => []
      end
  | EmptyString => []
  end.

Definition decimal_value (digits : list Z) : Z :=
  fold_left (fun acc d => 10 * acc + d) digits 0.

Definition INT_MIN : Z := - 2 ^ 31.
Definition INT_MAX : Z := 2 ^ 31 - 1.

(** The optional sign in front of the digits. *)
Definition take_sign (s : string) : bool * string :=
  match s with
  | String c rest =>
      if decide (c = "-"%char) then (true, rest)
      else if decide (c = "+"%char) then (false, rest)
      else (false, s)
  | EmptyString => (false, s)
  end.

(** [std::stoi(str)] in base 10: white space is skipped, a sign is taken,
    then the longest run of digits; what follows is ignored.  [None] is
    [std::invalid_argument] (no digit) or [std::out_of_range] (the number
    is not an [int]). *)
Definition stoi (str : string) : option Z :=
  let s := skip_space str in
  let '(negative, s) := take_sign s in
  match leading_digits s with
  | [] => None
  | digits =>
      let n := if negative : bool then - decimal_value digits
               else decimal_value digits in
      if decide (INT_MIN <= n <= INT_MAX) then Some n else None
  end.

(** What a call of [add] leaves behind: whether it threw, the parser, and
    the argument it was given by reference. *)
Record Added (t : ArgType) : Type := mkAdded {
  thrown : option string;
  parser : ArgumentParser;
  argument : Argument t
}.
Arguments mkAdded {t}.
Arguments thrown {t}.
Arguments parser {t}.
Arguments argument {t}.

Section Parser.

(** [std::filesystem::exists], the answer of the file system. *)
Context (path_exists : string -> bool).

(** [std::filesystem::path::generic_string], from the native text of a
    path to its text in the generic format. *)
Context (generic_string : string -> string).

(** Whether the [exception] of [util.h] derives from [std::exception], and
    so is caught by the handler of arguments.h:64; [util.h] is not among
    the sources. *)
Context (exception_is_std : bool).

Definition invalid_value (argumentName : string) : string :=
  "Invalid value for '" +:+ argumentName +:+ "'".

(** [parse(Argument<int> &)], arguments.h:61. *)
Definition parse_int (raw : list string) (arg : Argument TInt)
  : outcome (Argument TInt) :=
  match getNextArgument raw (name arg) with
  | Thrown message =>
      if exception_is_std then Thrown (invalid_value (name arg))
      else Thrown message
  | Returned text =>
      match stoi text with
      | None => Thrown (invalid_value (name arg))
      | Some n => Returned (with_value (t := TInt) n arg)
      end
  end.

(** [parse(Argument<bool> &)], arguments.h:69. *)
Definition parse_bool (raw : list string) (arg : Argument TBool)
  : outcome (Argument TBool) :=
  Returned (with_value (t := TBool) true arg).

(** [parse(Argument<std::string_view> &)], arguments.h:73. *)
Definition parse_string_view (raw : list string) (arg : Argument TStringView)
  : outcome (Argument TStringView) :=
  match getNextArgument raw (name arg) with
  | Thrown message => Thrown message
  | Returned text => Returned (with_value (t := TStringView) text arg)
  end.

(** [parse(Argument<std::filesystem::path> &)], arguments.h:77. *)
Definition parse_path (raw : list string) (arg : Argument TPath)
  : outcome (Argument TPath) :=
  match getNextArgument raw (name arg) with
  | Thrown message => Thrown message
  | Returned text =>
      if negb (path_exists text)
      then Thrown ("Invalid argument for '" +:+ name arg +:+ "': path '"
                     +:+ generic_string text +:+ "' does not exist!")
      else Returned (with_value (t := TPath) text arg)
  end.

(** The overload of [parse] chosen for [Argument<T>]. *)
Definition parse (t : ArgType) : list string -> Argument t -> outcome (Argument t) :=
  match t with
  | TInt => parse_int
  | TBool => parse_bool
  | TStringView => parse_string_view
  | TPath => parse_path
  end.

Definition newline : string := String (ascii_of_nat 10) EmptyString.

(** The two texts after the [+=] of arguments.h:91-94. *)
Definition describe {t} (this : ArgumentParser) (arg : Argument t)
  : ArgumentParser :=
  mkParser
    (rawArguments this) (argumentContainer this) (programName this)
    (if decide (briefDescription arg = EmptyString)
     then briefUsageDescription this
     else briefUsageDescription this
            +:+ name arg +:+ " " +:+ briefDescription arg +:+ " ")
    (if decide (description arg = EmptyString)
     then usageDescription this
     else usageDescription this
            +:+ "  " +:+ name arg +:+ ": " +:+ description arg +:+ newline).

Definition emplace_back {t} (arg : Argument t) (this : ArgumentParser)
  : ArgumentParser :=
  mkParser
    (rawArguments this) (argumentContainer this ++ [existT t arg])
    (programName this) (briefUsageDescription this) (usageDescription this).

(** [add(Argument<T> &)], arguments.h:90. *)
Definition add {t} (this : ArgumentParser) (arg : Argument t) : Added t :=
  let this := describe this arg in
  if isArgued (rawArguments this) (name arg)
  then
    match parse t (rawArguments this) arg with
    | Thrown message => mkAdded (Some message) this arg
    | Returned arg =>
        let arg := with_set true arg in
        mkAdded None (emplace_back arg this) arg
    end
  else mkAdded None (emplace_back arg this) arg.

(** [add(std::initializer_list<Argument<T>>)], arguments.h:103: each
    element is copied, then added; a throw ends the loop. *)
Fixpoint add_all {t} (this : ArgumentParser) (arguments : list (Argument t))
  : option string * ArgumentParser :=
  match arguments with
  | [] => (None, this)
  | arg :: rest =>
      let r := add this arg in
      match thrown r with
      | Some message => (Some message, parser r)
      | None => add_all (parser r) rest
      end
  end.

(** The [static_pointer_cast] of an element to [Argument<T>]: the element
    itself when it is an [Argument<T>]; C++ leaves the use of an
    [Argument] of another type through the cast undefined. *)
Definition cast_entry (t : ArgType) (e : Entry) : option (Argument t) :=
  match e with
  | existT t' arg =>
      match decide (t' = t) with
      | left E => Some (eq_rect t' Argument arg t E)
      | right _ => None
      end
  end.

(** [find<T>], arguments.h:111; [None] where the element found is an
    [Argument] of another type. *)
Definition find (t : ArgType) (this : ArgumentParser) (name : string)
  : option (Argument t) :=
  match list_find (fun e => entry_name e = name) (argumentContainer this) with
  | None => Some (Argument0 t)
  | Some (_, e) => cast_entry t e
  end.

(** The view a [const char *] converts to: up to the first NUL. *)
Fixpoint c_str (s : string) : string :=
  match s with
  | EmptyString => EmptyString
  | String c rest =>
      if decide (c = zero) then EmptyString else String c (c_str rest)
  end.

(** [getUsage], arguments.h:122. *)
Definition getUsage (this : ArgumentParser) : string * string * string :=
  (c_str (programName this), c_str (briefUsageDescription this),
   c_str (usageDescription this)).

End Parser.

End arguments.

(** ** Auxiliary definitions of the proofs *)

(** The same file system with the output path locked. *)
Definition locked_fs : FileSystem :=
  mkFileSystem {[ "out.sl2"%string := bytes_of_Zs [1; 2; 3] ]}
               {[ "out.sl2"%string ]}.

(** The number a hexadecimal digit stands for. *)
Definition hex_value (c : ascii) : Z :=
  let n := Z.of_nat (nat_of_ascii c) in
  if n <? 58 then n - 48 else n - 87.

(** The text of a list of decimal digits, before [rest]. *)
Definition digits_text (ds : list N) (rest : string) : string :=
  fold_right (fun d s => String (pretty_N_char d) s) rest ds.

Definition small_digits (ds : list N) : Prop := Forall (fun d => (d < 10)%N) ds.

Definition digits_value (ds : list N) : Z := arguments.decimal_value (map Z.of_N ds).

(** A command line, a file system that has [in.sl2] only, and [add] for
    them. *)

Definition demo_argv : list string :=
  ["savepatcher"; "--from"; "in.sl2"; "--level"; "42"; "--to"; "out.sl2";
   "--id"]%string.

Definition demo_exists (path : string) : bool :=
  bool_decide (path = "in.sl2"%string).

Definition demo_parser : arguments.ArgumentParser :=
  arguments.ArgumentParser_new demo_argv.

(** The paths of this command line have no directory separator: their
    text in the generic format is their native text. *)
Definition demo_generic_string (path : string) : string := path.

Definition demo_add {t} :=
  @arguments.add demo_exists demo_generic_string true t.

(** * Properties *)

(** ** Section descriptors *)

Section SectionLemmas.

Implicit Types (s t : SectionRange) (data view new : list u8).

Lemma bytesFrom_Ok s data view :
  bytesFrom s data = Ok view ->
  fits s data /\ view = take (sec_size s) (drop (sec_offset s) data).
Proof.
  unfold bytesFrom. case_decide; [|discriminate].
  intros [= <-]. auto.
Qed.

Lemma bytesFrom_fits s data :
  fits s data ->
  bytesFrom s data = Ok (take (sec_size s) (drop (sec_offset s) data)).
Proof. intros Hfit. unfold bytesFrom. now rewrite decide_True. Qed.

Lemma bytesFrom_Err s data e :
  bytesFrom s data = Err e -> e = OutOfRange /\ ~ fits s data.
Proof.
  unfold bytesFrom. case_decide; [discriminate|].
  intros [= <-]. auto.
Qed.

Lemma bytesFrom_length s data view :
  bytesFrom s data = Ok view -> length view = sec_size s.
Proof.
  intros [Hfit ->]%bytesFrom_Ok. unfold fits in Hfit.
  rewrite length_take, length_drop. lia.
Qed.

Lemma bytesFrom_lookup s data view i :
  bytesFrom s data = Ok view ->
  (i < sec_size s)%nat ->
  view !! i = data !! (sec_offset s + i)%nat.
Proof.
  intros [_ ->]%bytesFrom_Ok Hi.
  now rewrite lookup_take_lt, lookup_drop.
Qed.

Lemma replace_length s data new :
  length (replace s data new) = length data.
Proof. apply length_inserts. Qed.

Lemma replace_outside s data new i :
  ~ in_section s i -> replace s data new !! i = data !! i.
Proof.
  unfold in_section, replace. intros Hout.
  destruct (decide (i < sec_offset s)%nat).
  - now apply list_lookup_inserts_lt.
  - apply list_lookup_inserts_ge. rewrite length_take. lia.
Qed.

Lemma replace_inside s data new i :
  fits s data -> length new = sec_size s -> in_section s i ->
  replace s data new !! i = new !! (i - sec_offset s)%nat.
Proof.
  unfold fits, in_section, replace. intros Hfit Hlen Hin.
  rewrite list_lookup_inserts, lookup_take_lt by (rewrite ?length_take; lia).
  reflexivity.
Qed.

Lemma replace_fits s t data new :
  fits t (replace s data new) <-> fits t data.
Proof. unfold fits. now rewrite replace_length. Qed.

(** Reading a Section back after it was replaced gives the new bytes. *)
Lemma bytesFrom_replace_same s data new :
  fits s data -> length new = sec_size s ->
  bytesFrom s (replace s data new) = Ok new.
Proof.
  intros Hfit Hlen. rewrite bytesFrom_fits by now apply replace_fits.
  f_equal. apply list_eq. intros i.
  destruct (decide (i < sec_size s)%nat) as [Hi|Hi].
  - rewrite lookup_take_lt, lookup_drop by lia.
    rewrite replace_inside by (unfold in_section; auto with lia).
    f_equal. lia.
  - rewrite lookup_take_ge by lia. symmetry.
    apply lookup_ge_None. lia.
Qed.

(** A Section that shares no index with the replaced one reads as before. *)
Lemma bytesFrom_replace_other s t data new :
  (forall i, in_section s i -> ~ in_section t i) ->
  bytesFrom t (replace s data new) = bytesFrom t data.
Proof.
  intros Hdisj. unfold bytesFrom.
  destruct (decide (fits t data)) as [Hfit|Hfit].
  - rewrite decide_True by now apply replace_fits.
    f_equal. apply list_eq. intros i.
    destruct (decide (i < sec_size t)%nat) as [Hi|Hi].
    + rewrite !lookup_take_lt, !lookup_drop by lia.
      apply replace_outside. intros Hin. apply (Hdisj _ Hin).
      unfold in_section. lia.
    + now rewrite !lookup_take_ge by lia.
  - rewrite decide_False; [reflexivity|]. now rewrite replace_fits.
Qed.

End SectionLemmas.

(** ** Bytes, text and integers *)

Lemma trim_padding_length (bytes : list u8) :
  (length (trim_padding bytes) <= length bytes)%nat.
Proof.
  induction bytes as [|b rest IH]; simpl; [lia|].
  destruct (trim_padding rest); [case_decide|]; simpl in *; lia.
Qed.

(** Nothing was trimmed when the length is kept. *)
Lemma trim_padding_full (bytes : list u8) :
  length (trim_padding bytes) = length bytes -> trim_padding bytes = bytes.
Proof.
  induction bytes as [|b rest IH]; simpl; [reflexivity|].
  pose proof (trim_padding_length rest) as Hle.
  destruct (trim_padding rest) as [|c t] eqn:E.
  - case_decide; simpl; intros Hlen; [lia|].
    destruct rest; [reflexivity|simpl in Hlen; lia].
  - simpl in *. intros [= Hlen]. now rewrite IH.
Qed.

(** A three-byte field reads as the text BND exactly when it holds the
    three bytes of the tag. *)
Lemma magic_text (bytes : list u8) :
  length bytes = 3%nat ->
  string_of_list_byte (trim_padding bytes) = "BND"%string <-> bytes = magic_tag.
Proof.
  intros Hlen. split.
  - intros Htext. apply (f_equal list_byte_of_string) in Htext.
    rewrite list_byte_of_string_of_list_byte in Htext.
    unfold magic_tag. rewrite <- Htext. symmetry. apply trim_padding_full.
    rewrite Htext, Hlen. reflexivity.
  - intros ->. reflexivity.
Qed.

Lemma shifted_bytes_le_split (n k : nat) (x : Z) :
  map (fun i => to_u8 (Z.shiftr x (Z.of_nat i * 8))) (seq k n)
  = le_split n (Z.shiftr x (Z.of_nat k * 8)).
Proof.
  revert k. induction n as [|n IH]; intros k; [reflexivity|].
  change (le_split (S n) ?w) with (byte.of_Z w :: le_split n (Z.shiftr w 8)).
  simpl. f_equal. rewrite IH, Z.shiftr_shiftr by lia.
  do 2 f_equal. lia.
Qed.

(** The loop of [replaceSteamId] writes the little-endian encoding. *)
Lemma newSteamIdBytes_le_split (L : Layout) (x : Z) :
  newSteamIdBytes L x = le_split 8 x.
Proof.
  unfold newSteamIdBytes. simpl sec_size.
  rewrite shifted_bytes_le_split. now rewrite Z.shiftr_0_r.
Qed.

Lemma newSteamIdBytes_length (L : Layout) (x : Z) :
  length (newSteamIdBytes L x) = 8%nat.
Proof. rewrite newSteamIdBytes_le_split. apply length_le_split. Qed.

Lemma newSteamIdBytes_decode (L : Layout) (x : Z) :
  is_u64 x -> le_combine (newSteamIdBytes L x) = x.
Proof.
  intros Hx. rewrite newSteamIdBytes_le_split, le_combine_split.
  apply Z.mod_small. exact Hx.
Qed.

Lemma GenerateMd5_length (input : list u8) :
  length (GenerateMd5 input) = 16%nat.
Proof.
  unfold GenerateMd5, MD5.digest.
  rewrite !length_app, !length_le_split. reflexivity.
Qed.

(** ** Section views *)

(** C9. [bytesFrom] either returns a view, and then the Section fits the
    buffer, the view has exactly [sec_size] bytes and its byte [i] is the
    buffer's byte [sec_offset + i]; or it fails, and then the error is
    [OutOfRange] and [sec_offset + sec_size] exceeds the buffer's size.  No
    index past the end of the buffer is read. *)
Theorem bytesFrom_view (s : SectionRange) (data : list u8) :
  match bytesFrom s data with
  | Ok view =>
      (sec_offset s + sec_size s <= length data)%nat
      /\ length view = sec_size s
      /\ forall i, (i < sec_size s)%nat ->
           view !! i = data !! (sec_offset s + i)%nat
           /\ is_Some (data !! (sec_offset s + i)%nat)
  | Err e =>
      e = OutOfRange /\ (length data < sec_offset s + sec_size s)%nat
  end.
Proof.
  destruct (bytesFrom s data) as [view|e] eqn:E.
  - pose proof (bytesFrom_Ok _ _ _ E) as [Hfit _].
    split; [exact Hfit|]. split; [eauto using bytesFrom_length|].
    intros i Hi. split; [eauto using bytesFrom_lookup|].
    apply lookup_lt_is_Some. unfold fits in Hfit. lia.
  - apply bytesFrom_Err in E as [-> Hfit]. unfold fits in Hfit.
    split; [reflexivity|lia].
Qed.

(** ** Validation *)

Lemma charsFrom_magic (data : list u8) :
  (3 <= length data)%nat ->
  charsFrom HeaderBNDSection data
  = Ok (string_of_list_byte (trim_padding (take 3 data))).
Proof.
  intros Hlen. unfold charsFrom.
  rewrite bytesFrom_fits by (unfold fits; simpl; lia).
  reflexivity.
Qed.

(** The outcome of [validateData] on every buffer, with the range check
    of the tag's Section.  [validateData] succeeds exactly on a buffer of
    [SaveFileSize] bytes whose first three bytes are the tag BND.  A buffer
    of at least three bytes that is not such fails with [FormatError] and
    the given label; on a shorter buffer the tag is read first and the
    failure is the [OutOfRange] of the tag's Section. *)
Theorem validateData_cases (L : Layout) (data : list u8) (target : string) :
  (validateData L data target = Ok tt
   <-> length data = SaveFileSize L /\ take 3 data = magic_tag)
  /\ validateData L data target =
       if decide (length data < 3)%nat then Err OutOfRange
       else if decide (length data = SaveFileSize L /\ take 3 data = magic_tag)
            then Ok tt
            else Err (FormatError target).
Proof.
  assert (Hshort : take 3 data = magic_tag -> (3 <= length data)%nat).
  { intros Htag. apply (f_equal length) in Htag.
    rewrite length_take in Htag. change (length magic_tag) with 3%nat in Htag.
    lia. }
  assert (Hcases : validateData L data target =
       if decide (length data < 3)%nat then Err OutOfRange
       else if decide (length data = SaveFileSize L /\ take 3 data = magic_tag)
            then Ok tt
            else Err (FormatError target)).
  { unfold validateData. case_decide as Hlen.
    - unfold charsFrom, bytesFrom.
      rewrite decide_False by (unfold fits; simpl; lia). reflexivity.
    - rewrite charsFrom_magic by lia. simpl.
      pose proof (magic_text (take 3 data)) as Htext.
      rewrite length_take in Htext. specialize (Htext ltac:(lia)).
      case_decide as Hok.
      + destruct Hok as [Hsize Htag].
        rewrite bool_decide_eq_false_2 by (rewrite Htext; auto).
        rewrite bool_decide_eq_false_2 by auto. reflexivity.
      + destruct (decide (take 3 data = magic_tag)) as [Htag|Htag].
        * rewrite (bool_decide_eq_true_2 (length data ≠ _)) by tauto.
          now rewrite orb_true_r.
        * rewrite bool_decide_eq_true_2 by (rewrite Htext; auto).
          reflexivity. }
  split; [|exact Hcases].
  rewrite Hcases. repeat case_decide; split; try discriminate; try tauto.
  intros [_ Htag%Hshort]. lia.
Qed.

(** On the empty buffer [validateData] fails, but not with a
    [FormatError] naming the label. *)
Lemma validateData_empty_buffer :
  validateData small_layout [] "Save file" = Err OutOfRange
  /\ ~ ((validateData small_layout [] "Save file" = Ok tt
         <-> length (@nil u8) = SaveFileSize small_layout
             /\ take 3 (@nil u8) = magic_tag)
        /\ (validateData small_layout [] "Save file" <> Ok tt ->
            validateData small_layout [] "Save file"
            = Err (FormatError "Save file"))).
Proof.
  split; [reflexivity|].
  intros [_ Hfail]. change (validateData small_layout [] "Save file")
    with (@Err unit OutOfRange) in Hfail.
  specialize (Hfail ltac:(discriminate)). discriminate.
Qed.

(** C2, the code at its failing inputs.  [validateData] reads the tag
    before it tests the size: on a buffer shorter than three bytes, which
    is not a save file whatever [SaveFileSize] is, the read of the tag
    fails and the throw that names the label is not reached, so the
    exception is that of the tag's Section and not the [FormatError] of
    the label.  A buffer of three bytes or more that has the wrong size
    does get the [FormatError] of the label. *)
Theorem validateData_short_buffer
    (L : Layout) (data : list u8) (target : string) :
  (length data < 3)%nat ->
  ~ (length data = SaveFileSize L /\ take 3 data = magic_tag)
  /\ (forall e, charsFrom HeaderBNDSection data = Err e ->
        validateData L data target = Err e)
  /\ validateData L data target = Err OutOfRange
  /\ validateData L data target <> Err (FormatError target)
  /\ forall longer : list u8,
       (3 <= length longer)%nat -> length longer <> SaveFileSize L ->
       validateData L longer target = Err (FormatError target).
Proof.
  intros Hshort.
  assert (Hread : charsFrom HeaderBNDSection data = Err OutOfRange).
  { unfold charsFrom, bytesFrom.
    now rewrite decide_False by (unfold fits; simpl; lia). }
  split; [|split; [|split; [|split]]].
  - intros [_ Htag]. apply (f_equal length) in Htag.
    rewrite length_take in Htag. change (length magic_tag) with 3%nat in Htag.
    lia.
  - intros e He. unfold validateData. now rewrite He.
  - unfold validateData. now rewrite Hread.
  - unfold validateData. rewrite Hread. discriminate.
  - intros longer Hlen Hsize. unfold validateData.
    rewrite charsFrom_magic by exact Hlen. simpl.
    rewrite (bool_decide_eq_true_2 (length longer ≠ _)) by exact Hsize.
    now rewrite orb_true_r.
Qed.

Lemma validateData_short_buffer_witness :
  validateData small_layout [] "Save file" = Err OutOfRange
  /\ validateData small_layout [] "Save file"
     <> Err (FormatError "Save file")
  /\ validateData small_layout (list_byte_of_string "BND") "Save file"
     = Err (FormatError "Save file").
Proof.
  destruct (validateData_short_buffer small_layout [] "Save file")
    as (_ & _ & Hrun & Hnot & Hlonger).
  - simpl. lia.
  - split; [exact Hrun|]. split; [exact Hnot|].
    apply Hlonger; simpl; lia.
Defined.

(** ** The active slot *)

(** C7. Where the flags Section fits the buffer, [getActiveSlotIndex]
    returns the index of the first flag byte equal to 1, and fails with
    [NotFound] when no flag byte equals 1.  The flags 0,0,1,0 give 2 and
    flags that are all zero give [NotFound]. *)
Theorem getActiveSlotIndex_first_active
    (L : Layout) (data flags : list u8) :
  bytesFrom (ActiveSection L) data = Ok flags ->
  match getActiveSlotIndex L data with
  | Ok found =>
      flags !! found = Some Byte.x01
      /\ forall j, (j < found)%nat -> flags !! j <> Some Byte.x01
  | Err e => e = NotFound /\ Forall (fun b => b <> Byte.x01) flags
  end
  /\ (flags = [Byte.x00; Byte.x00; Byte.x01; Byte.x00] ->
      getActiveSlotIndex L data = Ok 2%nat)
  /\ (flags = replicate (length flags) Byte.x00 ->
      getActiveSlotIndex L data = Err NotFound).
Proof.
  intros Hflags. unfold getActiveSlotIndex. rewrite Hflags. simpl.
  assert (Hone : forall b : u8, byte.unsigned b = sizeof_bool <-> b = Byte.x01).
  { intros b. split; [|now intros ->].
    intros Hb. now apply byte.unsigned_inj. }
  split; [|split].
  - destruct (list_find _ flags) as [[found b]|] eqn:Hfind.
    + apply list_find_Some in Hfind as (Hlook & Hb & Hfirst).
      apply Hone in Hb. subst b. split; [exact Hlook|].
      intros j Hj Hj1. apply (Hfirst j Byte.x01 Hj1 Hj). reflexivity.
    + apply list_find_None in Hfind. split; [reflexivity|].
      eapply Forall_impl; [exact Hfind|]. intros b Hb ->. now apply Hb.
  - intros ->. reflexivity.
  - intros Hzero.
    destruct (list_find _ flags) as [[found b]|] eqn:Hfind; [|reflexivity].
    apply list_find_Some in Hfind as (Hlook & Hb & _).
    rewrite Hzero in Hlook. apply lookup_replicate in Hlook as [-> _].
    discriminate Hb.
Qed.

Lemma getActiveSlotIndex_first_active_witness :
  getActiveSlotIndex small_layout small_data = Ok 2%nat.
Proof.
  apply (getActiveSlotIndex_first_active small_layout small_data
           [Byte.x00; Byte.x00; Byte.x01; Byte.x00]).
  - vm_compute. reflexivity.
  - reflexivity.
Defined.

(** ** Replacing the owner identifier *)

Lemma steamId_Ok (L : Layout) (data : list u8) (current : Z) :
  steamId L data = Ok current ->
  fits (SteamIdSection L) data /\ is_u64 current.
Proof.
  unfold steamId, castInteger.
  destruct (bytesFrom _ data) as [bytes|e] eqn:E; [|discriminate].
  simpl. intros [= <-]. split; [now apply bytesFrom_Ok in E|].
  apply Z.mod_pos_bound. reflexivity.
Qed.

(** A call with a new identifier returns, and writes the encoded
    identifier into its Section of the working copy. *)
Lemma replaceSteamId_run (L : Layout) (this : SaveFile) (x current : Z) :
  steamId L (patchedSaveData this) = Ok current ->
  current <> x ->
  replaceSteamId L x this
  = (Ok tt,
     set_patchedSaveData
       (replace (SteamIdSection L) (patchedSaveData this) (le_split 8 x))
       this).
Proof.
  intros Hcur Hne. unfold replaceSteamId, bind, get, lift, put, default_data.
  rewrite Hcur, decide_False by exact Hne.
  now rewrite newSteamIdBytes_le_split.
Qed.

(** C3. For a 64-bit [x] other than the current owner identifier,
    [replaceSteamId x] returns and [steamId] on the working copy then reads
    exactly [x]: the bytes the loop writes are the little-endian encoding
    of [x], which the little-endian read inverts. *)
Theorem replaceSteamId_then_steamId
    (L : Layout) (this : SaveFile) (x current : Z) :
  is_u64 x ->
  steamId L (patchedSaveData this) = Ok current ->
  current <> x ->
  exists this',
    replaceSteamId L x this = (Ok tt, this')
    /\ steamId L (patchedSaveData this') = Ok x
    /\ bytesFrom (SteamIdSection L) (patchedSaveData this')
       = Ok (newSteamIdBytes L x)
    /\ newSteamIdBytes L x = le_split 8 x.
Proof.
  intros Hx Hcur Hne. eexists. split; [eapply replaceSteamId_run; eassumption|].
  pose proof (steamId_Ok _ _ _ Hcur) as [Hfit _].
  assert (Hread : bytesFrom (SteamIdSection L)
            (replace (SteamIdSection L) (patchedSaveData this) (le_split 8 x))
          = Ok (le_split 8 x)).
  { apply bytesFrom_replace_same; [exact Hfit|]. apply length_le_split. }
  simpl. split; [|split].
  - unfold steamId, castInteger. rewrite Hread. simpl.
    rewrite le_combine_split, Z.mod_mod by (now apply Z.pow_nonzero).
    f_equal. apply Z.mod_small. exact Hx.
  - now rewrite newSteamIdBytes_le_split.
  - apply newSteamIdBytes_le_split.
Qed.

Lemma replaceSteamId_then_steamId_witness :
  exists this',
    replaceSteamId small_layout 76561197960287931 small_save = (Ok tt, this')
    /\ steamId small_layout (patchedSaveData this') = Ok 76561197960287931.
Proof.
  destruct (replaceSteamId_then_steamId small_layout small_save
              76561197960287931 small_steam_id)
    as (this' & Hrun & Hread & _).
  - unfold is_u64, u64_max. lia.
  - vm_compute. reflexivity.
  - unfold small_steam_id. lia.
  - exists this'. split; assumption.
Defined.

(** C4. For an [x] other than the current owner identifier,
    [replaceSteamId x] returns with the working copy at its old length and
    with every byte outside the owner-identifier Section as it was; the
    original buffer and the active slot index are not written either. *)
Theorem replaceSteamId_frame
    (L : Layout) (this : SaveFile) (x current : Z) :
  steamId L (patchedSaveData this) = Ok current ->
  current <> x ->
  exists this',
    replaceSteamId L x this = (Ok tt, this')
    /\ length (patchedSaveData this') = length (patchedSaveData this)
    /\ (forall i, ~ in_section (SteamIdSection L) i ->
          patchedSaveData this' !! i = patchedSaveData this !! i)
    /\ originalSaveData this' = originalSaveData this
    /\ activeSlotIndex this' = activeSlotIndex this.
Proof.
  intros Hcur Hne. eexists. split; [eapply replaceSteamId_run; eassumption|].
  simpl. split; [apply replace_length|].
  split; [|split; reflexivity].
  intros i Hout. now apply replace_outside.
Qed.

Lemma replaceSteamId_frame_witness :
  exists this',
    replaceSteamId small_layout 76561197960287931 small_save = (Ok tt, this')
    /\ length (patchedSaveData this') = 48%nat
    /\ take 28 (patchedSaveData this') = take 28 small_data
    /\ drop 36 (patchedSaveData this') = drop 36 small_data.
Proof.
  destruct (replaceSteamId_frame small_layout small_save
              76561197960287931 small_steam_id)
    as (this' & Hrun & Hlen & Hout & _).
  - vm_compute. reflexivity.
  - unfold small_steam_id. lia.
  - exists this'. split; [exact Hrun|]. split; [exact Hlen|].
    split; apply list_eq; intros i.
    + destruct (decide (i < 28)%nat).
      * rewrite !lookup_take_lt by lia. apply Hout.
        unfold in_section. simpl. lia.
      * now rewrite !lookup_take_ge by lia.
    + rewrite !lookup_drop. apply Hout. unfold in_section. simpl. lia.
Defined.

(** C5. [replaceSteamId] with the identifier the working copy already
    holds throws the no-op exception and leaves the object as it was. *)
Theorem replaceSteamId_same_id (L : Layout) (this : SaveFile) (x : Z) :
  steamId L (patchedSaveData this) = Ok x ->
  replaceSteamId L x this
  = (Err (NoOpError "Steam ID is already correct"), this).
Proof.
  intros Hcur. unfold replaceSteamId, bind, get, lift, throw, default_data.
  now rewrite Hcur, decide_True.
Qed.

Lemma replaceSteamId_same_id_witness :
  replaceSteamId small_layout small_steam_id small_save
  = (Err (NoOpError "Steam ID is already correct"), small_save).
Proof.
  apply replaceSteamId_same_id. vm_compute. reflexivity.
Defined.

(** ** Recalculating the checksum *)

Lemma sections_disjoint_in (s t : SectionRange) :
  sections_disjoint s t -> forall i, in_section s i -> ~ in_section t i.
Proof. unfold sections_disjoint, in_section. lia. Qed.

Lemma checksum_Ok (L : Layout) (data : list u8) (text : string) :
  checksum L data = Ok text <->
  exists stored,
    bytesFrom (SaveHeaderChecksumSection L) data = Ok stored
    /\ text = FormatHex stored.
Proof.
  unfold checksum.
  destruct (bytesFrom _ data) as [stored|e]; simpl; split.
  - intros [= <-]. eauto.
  - intros (? & [= <-] & ->). reflexivity.
  - discriminate.
  - intros (? & [=] & _).
Qed.

(** What a call that returns has read and written. *)
Lemma recalculateChecksum_Ok
    (L : Layout) (this this' : SaveFile) (text : string) :
  recalculateChecksum L this = (Ok text, this') ->
  exists header stored,
    bytesFrom (SaveHeaderSection L) (patchedSaveData this) = Ok header
    /\ bytesFrom (SaveHeaderChecksumSection L) (patchedSaveData this)
       = Ok stored
    /\ FormatHex stored <> FormatHex (GenerateMd5 header)
    /\ text = FormatHex (GenerateMd5 header)
    /\ this' = set_patchedSaveData
                 (replace (SaveHeaderChecksumSection L) (patchedSaveData this)
                          (GenerateMd5 header))
                 this.
Proof.
  unfold recalculateChecksum, bind, get, lift, put, throw, ret, checksum,
    default_data.
  destruct (bytesFrom (SaveHeaderSection L) _) as [header|e]; [|discriminate].
  destruct (bytesFrom (SaveHeaderChecksumSection L) _) as [stored|e];
    [|discriminate].
  simpl. case_decide as Hsame; [discriminate|].
  intros [= <- <-]. exists header, stored. auto.
Qed.

(** A stored checksum that is already the digest of the header stops the
    call, with the object as it was. *)
Lemma recalculateChecksum_correct_already
    (L : Layout) (this : SaveFile) (header : list u8) :
  bytesFrom (SaveHeaderSection L) (patchedSaveData this) = Ok header ->
  bytesFrom (SaveHeaderChecksumSection L) (patchedSaveData this)
  = Ok (GenerateMd5 header) ->
  recalculateChecksum L this
  = (Err (NoOpError "Save header checksum is already correct"), this).
Proof.
  intros Hheader Hstored.
  unfold recalculateChecksum, bind, get, lift, throw, checksum, default_data.
  rewrite Hheader, Hstored. simpl. now rewrite decide_True.
Qed.

(** The buffer after a call that returned: the header reads as before and
    the checksum field holds its digest. *)
Lemma recalculateChecksum_after
    (L : Layout) (this this' : SaveFile) (text : string) :
  checksum_outside_header L ->
  recalculateChecksum L this = (Ok text, this') ->
  exists header,
    bytesFrom (SaveHeaderSection L) (patchedSaveData this) = Ok header
    /\ bytesFrom (SaveHeaderSection L) (patchedSaveData this') = Ok header
    /\ bytesFrom (SaveHeaderChecksumSection L) (patchedSaveData this')
       = Ok (GenerateMd5 header)
    /\ text = FormatHex (GenerateMd5 header).
Proof.
  intros Hout (header & stored & Hheader & Hstored & _ & -> & ->)
    %recalculateChecksum_Ok.
  exists header. simpl. split; [exact Hheader|].
  split; [|split; [|reflexivity]].
  - rewrite bytesFrom_replace_other; [exact Hheader|].
    now apply sections_disjoint_in.
  - apply bytesFrom_replace_same; [now apply bytesFrom_Ok in Hstored|].
    apply GenerateMd5_length.
Qed.

(** C1. With the checksum field outside the hashed header, after a call
    of [recalculateChecksum] that returned, [checksum] on the working copy
    is the lowercase hexadecimal text of the MD5 digest of the header bytes
    of that working copy, and the call returned the same text. *)
Theorem recalculateChecksum_checksum
    (L : Layout) (this this' : SaveFile) (text : string) :
  checksum_outside_header L ->
  recalculateChecksum L this = (Ok text, this') ->
  exists header,
    bytesFrom (SaveHeaderSection L) (patchedSaveData this') = Ok header
    /\ checksum L (patchedSaveData this')
       = Ok (FormatHex (GenerateMd5 header))
    /\ text = FormatHex (GenerateMd5 header).
Proof.
  intros Hout Hrun.
  destruct (recalculateChecksum_after _ _ _ _ Hout Hrun)
    as (header & _ & Hheader & Hstored & Htext).
  exists header. split; [exact Hheader|]. split; [|exact Htext].
  apply checksum_Ok. eauto.
Qed.

Lemma recalculateChecksum_checksum_witness :
  exists this' header,
    recalculateChecksum small_layout small_save
    = (Ok "c36de464c2f0b92e741389a779f0474a"%string, this')
    /\ bytesFrom (SaveHeaderSection small_layout) (patchedSaveData this')
       = Ok header
    /\ checksum small_layout (patchedSaveData this')
       = Ok (FormatHex (GenerateMd5 header)).
Proof.
  destruct (recalculateChecksum_checksum small_layout small_save
              (snd (recalculateChecksum small_layout small_save))
              "c36de464c2f0b92e741389a779f0474a")
    as (header & Hheader & Hsum & _).
  - unfold checksum_outside_header, sections_disjoint. simpl. lia.
  - vm_compute. reflexivity.
  - eexists _, header. split; [|split; eassumption].
    vm_compute. reflexivity.
Defined.

(** C6. Any call of [recalculateChecksum] made while the checksum field
    holds the digest of the header throws the no-op exception and leaves
    the object as it was; with the checksum field outside the hashed
    header, that is the case right after a call that returned, so a second
    call in a row throws the no-op exception. *)
Theorem recalculateChecksum_twice (L : Layout) (this : SaveFile) :
  (forall header,
     bytesFrom (SaveHeaderSection L) (patchedSaveData this) = Ok header ->
     bytesFrom (SaveHeaderChecksumSection L) (patchedSaveData this)
     = Ok (GenerateMd5 header) ->
     recalculateChecksum L this
     = (Err (NoOpError "Save header checksum is already correct"), this))
  /\ (checksum_outside_header L ->
      forall text this',
        recalculateChecksum L this = (Ok text, this') ->
        recalculateChecksum L this'
        = (Err (NoOpError "Save header checksum is already correct"), this')).
Proof.
  split.
  - apply recalculateChecksum_correct_already.
  - intros Hout text this' Hrun.
    destruct (recalculateChecksum_after _ _ _ _ Hout Hrun)
      as (header & _ & Hheader & Hstored & _).
    now apply (recalculateChecksum_correct_already L this' header).
Qed.

Lemma recalculateChecksum_twice_witness :
  let this' := snd (recalculateChecksum small_layout small_save) in
  recalculateChecksum small_layout this'
  = (Err (NoOpError "Save header checksum is already correct"), this').
Proof.
  refine (proj2 (recalculateChecksum_twice small_layout small_save) _
            "c36de464c2f0b92e741389a779f0474a"%string _ _).
  - unfold checksum_outside_header, sections_disjoint. simpl. lia.
  - vm_compute. reflexivity.
Defined.

(** ** Writing the file *)


(** A working copy that does not validate stops [write] after the stream
    was opened: the file is there, and empty. *)
Lemma write_invalid
    (L : Layout) (this : SaveFile) (filename : string) (fs : FileSystem)
    (e : exception) :
  filename ∉ unwritable fs ->
  validateData L (patchedSaveData this) "Generated data" = Err e ->
  exists fs',
    write L this filename fs = (Err e, fs')
    /\ files fs' !! filename = Some [].
Proof.
  intros Hw Hinvalid. eexists.
  unfold write, bind, lift, ofstream_open.
  rewrite decide_False by exact Hw. rewrite Hinvalid.
  split; [reflexivity|]. simpl. apply lookup_insert_eq.
Qed.

(** C8, the code at a failing input.  [write] opens the output stream
    before it validates: with a working copy of the wrong size the call
    throws the format error, and the file that held three bytes is left
    empty; a path that had no file is left with an empty one. *)
Theorem write_invalid_truncates :
  files small_fs !! "out.sl2"%string = Some (bytes_of_Zs [1; 2; 3])
  /\ files small_fs !! "new.sl2"%string = None
  /\ (exists fs',
        write small_layout oversized_save "out.sl2" small_fs
        = (Err (FormatError "Generated data"), fs')
        /\ files fs' !! "out.sl2"%string = Some [])
  /\ (exists fs',
        write small_layout oversized_save "new.sl2" small_fs
        = (Err (FormatError "Generated data"), fs')
        /\ files fs' !! "new.sl2"%string = Some []).
Proof.
  split; [reflexivity|]. split; [reflexivity|].
  split; apply write_invalid; (set_solver || (vm_compute; reflexivity)).
Qed.

(** ** The active slot accessor *)

(** C10. [activeSlot] does not read its buffer argument: on any two
    buffers it returns the same value, the [activeSlotIndex] of the object;
    and neither [replaceSteamId] nor [recalculateChecksum] writes that
    field, so the value is the same before and after them. *)
Theorem activeSlot_ignores_buffer
    (L : Layout) (this : SaveFile) (b1 b2 : list u8) (x : Z) :
  activeSlot this b1 = activeSlot this b2
  /\ activeSlot this b1 = activeSlotIndex this
  /\ activeSlot (snd (replaceSteamId L x this)) b2 = activeSlot this b1
  /\ activeSlot (snd (recalculateChecksum L this)) b2 = activeSlot this b1.
Proof.
  unfold activeSlot. split; [reflexivity|]. split; [reflexivity|]. split.
  - unfold replaceSteamId, bind, get, lift, put, throw, default_data.
    destruct (steamId L _); [case_decide|]; reflexivity.
  - unfold recalculateChecksum, bind, get, lift, put, throw, ret, default_data.
    destruct (bytesFrom _ _); [|reflexivity].
    destruct (checksum L _); [case_decide|]; reflexivity.
Qed.

(** The accessor on a buffer whose flags mark another slot still answers
    with the stored index. *)
Example activeSlot_other_flags :
  let other := replace (ActiveSection small_layout) small_data
                 (bytes_of_Zs [1; 0; 0; 0]) in
  getActiveSlotIndex small_layout other = Ok 0%nat
  /\ activeSlot small_save other = 2%nat.
Proof. split; vm_compute; reflexivity. Qed.

(** ** The checksum engine on known digests *)

Example md5_empty :
  FormatHex (GenerateMd5 []) = "d41d8cd98f00b204e9800998ecf8427e"%string.
Proof. vm_compute. reflexivity. Qed.

Example md5_abc :
  FormatHex (GenerateMd5 (list_byte_of_string "abc"))
  = "900150983cd24fb0d6963f7d28e17f72"%string.
Proof. vm_compute. reflexivity. Qed.

Example md5_two_blocks :
  FormatHex (GenerateMd5 (list_byte_of_string
    "12345678901234567890123456789012345678901234567890123456789012345678901234567890"))
  = "57edf4a22be3c955ac49da2e2107b67a"%string.
Proof. vm_compute. reflexivity. Qed.

(** * Further properties of [savefile.cpp] *)

(** ** Writing and loading *)



(** X2. [write] to a path that cannot be opened leaves the file system as
    it was.  The working copy is validated before the stream is tested, so
    the exception is the one of [validateData] when the copy is not valid,
    and the could-not-open one naming the file only when it is. *)
Theorem write_unopenable
    (L : Layout) (this : SaveFile) (filename : string) (fs : FileSystem) :
  filename ∈ unwritable fs ->
  write L this filename fs
  = (match validateData L (patchedSaveData this) "Generated data" with
     | Ok _ => Err (IOError filename)
     | Err e => Err e
     end, fs).
Proof.
  intros Hlocked. unfold write, bind, lift, ofstream_open, throw.
  rewrite decide_True by exact Hlocked.
  destruct (validateData L _ _) as [[]|e]; reflexivity.
Qed.

Lemma write_unopenable_witness :
  write small_layout small_save "out.sl2" locked_fs
  = (Err (IOError "out.sl2"), locked_fs)
  /\ write small_layout oversized_save "out.sl2" locked_fs
     = (Err (FormatError "Generated data"), locked_fs).
Proof.
  split.
  - rewrite (write_unopenable small_layout small_save "out.sl2" locked_fs)
      by (unfold locked_fs; set_solver).
    vm_compute. reflexivity.
  - rewrite (write_unopenable small_layout oversized_save "out.sl2" locked_fs)
      by (unfold locked_fs; set_solver).
    vm_compute. reflexivity.
Defined.

(** ** What the two mutating methods keep *)

(** X3. Whatever [replaceSteamId] and [recalculateChecksum] do, a call that
    throws leaves the object exactly as it was, and a call that returns
    has kept the length of the working copy, the original buffer and the
    active slot index. *)
Theorem mutators_exception_safe (L : Layout) (this : SaveFile) (x : Z) :
  (match replaceSteamId L x this with
   | (Err _, this') => this' = this
   | (Ok _, this') =>
       length (patchedSaveData this') = length (patchedSaveData this)
       /\ originalSaveData this' = originalSaveData this
       /\ activeSlotIndex this' = activeSlotIndex this
   end)
  /\ (match recalculateChecksum L this with
      | (Err _, this') => this' = this
      | (Ok _, this') =>
          length (patchedSaveData this') = length (patchedSaveData this)
          /\ originalSaveData this' = originalSaveData this
          /\ activeSlotIndex this' = activeSlotIndex this
      end).
Proof.
  split.
  - unfold replaceSteamId, bind, get, lift, put, throw, default_data.
    destruct (steamId L _); [case_decide|]; simpl; auto.
    split; [apply replace_length|auto].
  - unfold recalculateChecksum, bind, get, lift, put, throw, ret, default_data.
    destruct (bytesFrom _ _); [|reflexivity].
    destruct (checksum L _); [case_decide|]; simpl; auto.
    split; [apply replace_length|auto].
Qed.

(** ** The checksum text *)

Lemma hex_value_digit (n : Z) : 0 <= n < 16 -> hex_value (hex_digit n) = n.
Proof.
  intros Hn. rewrite <- (Z2Nat.id n) by lia.
  assert (Hlt : (Z.to_nat n < 16)%nat) by lia.
  generalize dependent (Z.to_nat n). clear. intros k Hk.
  do 16 (destruct k as [|k]; [reflexivity|]). lia.
Qed.

Lemma FormatHex_cons (b : u8) (bytes : list u8) :
  FormatHex (b :: bytes)
  = String (hex_digit (byte.unsigned b / 16))
      (String (hex_digit (byte.unsigned b mod 16)) (FormatHex bytes)).
Proof. reflexivity. Qed.

(** Two byte runs with the same hexadecimal text are the same run. *)
Lemma FormatHex_inj (a b : list u8) : FormatHex a = FormatHex b -> a = b.
Proof.
  revert b. induction a as [|x a IH]; intros [|y b]; try discriminate.
  - reflexivity.
  - rewrite !FormatHex_cons. intros [= Hhi Hlo Hrest].
    f_equal; [|now apply IH]. apply byte.unsigned_inj.
    pose proof (byte.unsigned_range x). pose proof (byte.unsigned_range y).
    apply (f_equal hex_value) in Hhi, Hlo.
    rewrite !hex_value_digit in Hhi, Hlo
      by (try apply Z.mod_pos_bound; try split;
          try apply Z.div_pos; try apply Z.div_lt_upper_bound; lia).
    rewrite (Z.div_mod (byte.unsigned x) 16), (Z.div_mod (byte.unsigned y) 16)
      by lia.
    congruence.
Qed.

Lemma FormatHex_length (bytes : list u8) :
  String.length (FormatHex bytes) = (2 * length bytes)%nat.
Proof.
  induction bytes as [|b bytes IH]; [reflexivity|].
  rewrite FormatHex_cons. simpl. rewrite IH. lia.
Qed.

(** X4. Where the header and the checksum field fit the working copy,
    [recalculateChecksum] throws the no-op exception exactly when the
    sixteen stored bytes are the digest of the header; in every other case
    it returns the text of the digest and has written the digest, and
    nothing else, into the checksum field.  The comparison of the two
    hexadecimal texts never takes different bytes for equal. *)
Theorem recalculateChecksum_outcome
    (L : Layout) (this : SaveFile) (header stored : list u8) :
  bytesFrom (SaveHeaderSection L) (patchedSaveData this) = Ok header ->
  bytesFrom (SaveHeaderChecksumSection L) (patchedSaveData this) = Ok stored ->
  recalculateChecksum L this
  = if decide (stored = GenerateMd5 header)
    then (Err (NoOpError "Save header checksum is already correct"), this)
    else (Ok (FormatHex (GenerateMd5 header)),
          set_patchedSaveData
            (replace (SaveHeaderChecksumSection L) (patchedSaveData this)
                     (GenerateMd5 header))
            this).
Proof.
  intros Hheader Hstored.
  unfold recalculateChecksum, bind, get, lift, put, throw, ret, checksum,
    default_data.
  rewrite Hheader, Hstored. simpl.
  destruct (decide (stored = GenerateMd5 header)) as [->|Hne].
  - now rewrite decide_True.
  - rewrite decide_False; [reflexivity|].
    intros Heq. now apply Hne, FormatHex_inj.
Qed.

Lemma recalculateChecksum_outcome_witness :
  exists this',
    recalculateChecksum small_layout small_save
    = (Ok "c36de464c2f0b92e741389a779f0474a"%string, this')
    /\ bytesFrom (SaveHeaderChecksumSection small_layout)
         (patchedSaveData this')
       = Ok (GenerateMd5 (take 16 (drop 24 small_data))).
Proof.
  eexists. split.
  - rewrite (recalculateChecksum_outcome small_layout small_save
               (take 16 (drop 24 small_data)) (replicate 16 Byte.x00))
      by (vm_compute; reflexivity).
    rewrite decide_False by (vm_compute; discriminate).
    vm_compute. reflexivity.
  - vm_compute. reflexivity.
Defined.

(** ** Composing calls of [replaceSteamId] *)

Lemma steamId_after_replace (L : Layout) (data : list u8) (x : Z) :
  fits (SteamIdSection L) data -> is_u64 x ->
  steamId L (replace (SteamIdSection L) data (le_split 8 x)) = Ok x.
Proof.
  intros Hfit Hx. unfold steamId, castInteger.
  rewrite bytesFrom_replace_same by (auto using length_le_split).
  simpl. rewrite le_combine_split, Z.mod_mod by (now apply Z.pow_nonzero).
  f_equal. apply Z.mod_small. exact Hx.
Qed.

(** The bytes of the Section are the encoding of the identifier read. *)
Lemma steamId_encoding (L : Layout) (data : list u8) (current : Z) :
  steamId L data = Ok current ->
  bytesFrom (SteamIdSection L) data = Ok (le_split 8 current).
Proof.
  unfold steamId, castInteger.
  destruct (bytesFrom _ data) as [bytes|e] eqn:E; [|discriminate].
  simpl. intros [= <-]. f_equal.
  pose proof (bytesFrom_length _ _ _ E) as Hlen. simpl in Hlen.
  pose proof (le_combine_bound bytes) as Hbound. rewrite Hlen in Hbound.
  rewrite Z.mod_small by exact Hbound.
  symmetry. now apply split_le_combine'.
Qed.

(** Writing back the bytes a Section holds changes nothing. *)
Lemma replace_restore (s : SectionRange) (data new view : list u8) :
  bytesFrom s data = Ok view ->
  length new = sec_size s ->
  replace s (replace s data new) view = data.
Proof.
  intros Hview Hnew.
  pose proof (bytesFrom_Ok _ _ _ Hview) as [Hfit _].
  pose proof (bytesFrom_length _ _ _ Hview) as Hlen.
  apply list_eq. intros i.
  destruct (decide (in_section s i)) as [Hin|Hout].
  - rewrite replace_inside by (auto; now apply replace_fits).
    rewrite (bytesFrom_lookup _ _ _ _ Hview) by (unfold in_section in Hin; lia).
    f_equal. unfold in_section in Hin. lia.
  - now rewrite !replace_outside.
Qed.

(** X5. Replacing the owner identifier and then replacing it again with
    the identifier that was there gives back the object as it was: both
    calls return, and the working copy is the old one byte for byte. *)
Theorem replaceSteamId_undo
    (L : Layout) (this : SaveFile) (x old : Z) :
  is_u64 x ->
  steamId L (patchedSaveData this) = Ok old ->
  old <> x ->
  exists this',
    replaceSteamId L x this = (Ok tt, this')
    /\ replaceSteamId L old this' = (Ok tt, this).
Proof.
  intros Hx Hold Hne.
  pose proof (steamId_Ok _ _ _ Hold) as [Hfit _].
  eexists. split; [eapply replaceSteamId_run; eassumption|].
  erewrite replaceSteamId_run;
    [|simpl; now apply steamId_after_replace|congruence].
  f_equal. destruct this as [orig data slot]. unfold set_patchedSaveData.
  simpl in *. f_equal.
  apply replace_restore; [now apply steamId_encoding|apply length_le_split].
Qed.

Lemma replaceSteamId_undo_witness :
  exists this',
    replaceSteamId small_layout 76561197960287931 small_save = (Ok tt, this')
    /\ replaceSteamId small_layout small_steam_id this' = (Ok tt, small_save).
Proof.
  apply replaceSteamId_undo.
  - unfold is_u64, u64_max. lia.
  - vm_compute. reflexivity.
  - unfold small_steam_id. lia.
Defined.

(** X6. After [replaceSteamId x] has returned, a second [replaceSteamId x]
    throws the no-op exception and changes nothing. *)
Theorem replaceSteamId_again
    (L : Layout) (this this' : SaveFile) (x : Z) :
  is_u64 x ->
  replaceSteamId L x this = (Ok tt, this') ->
  replaceSteamId L x this'
  = (Err (NoOpError "Steam ID is already correct"), this').
Proof.
  intros Hx Hrun.
  assert (Hread : steamId L (patchedSaveData this') = Ok x).
  { revert Hrun.
    unfold replaceSteamId, bind, get, lift, put, throw, default_data.
    destruct (steamId L (patchedSaveData this)) as [current|e] eqn:Hcur;
      [|discriminate].
    case_decide; [discriminate|]. intros [= <-]. simpl.
    rewrite newSteamIdBytes_le_split.
    apply steamId_after_replace; [|exact Hx].
    now apply steamId_Ok in Hcur. }
  unfold replaceSteamId, bind, get, lift, throw, default_data.
  now rewrite Hread, decide_True.
Qed.

Lemma replaceSteamId_again_witness :
  let this' := snd (replaceSteamId small_layout 76561197960287931 small_save) in
  replaceSteamId small_layout 76561197960287931 this'
  = (Err (NoOpError "Steam ID is already correct"), this').
Proof.
  apply (replaceSteamId_again small_layout small_save).
  - unfold is_u64, u64_max. lia.
  - vm_compute. reflexivity.
Defined.

(** ** Validity of the working copy *)

Lemma validateData_Ok_iff (L : Layout) (data : list u8) (target : string) :
  validateData L data target = Ok tt
  <-> length data = SaveFileSize L /\ take 3 data = magic_tag.
Proof.
  unfold validateData.
  destruct (decide (3 <= length data)%nat) as [Hlen|Hlen].
  - rewrite charsFrom_magic by exact Hlen. simpl.
    pose proof (magic_text (take 3 data)) as Htext.
    rewrite length_take in Htext. specialize (Htext ltac:(lia)).
    rewrite <- Htext. clear Htext.
    destruct (bool_decide _) eqn:Hmagic; simpl.
    + apply bool_decide_eq_true in Hmagic. split; [discriminate|tauto].
    + apply bool_decide_eq_false in Hmagic.
      destruct (bool_decide _) eqn:Hsize.
      * apply bool_decide_eq_true in Hsize. split; [discriminate|tauto].
      * apply bool_decide_eq_false in Hsize.
        split; [intros _|reflexivity].
        split; [now destruct (decide (length data = SaveFileSize L))|].
        now destruct (decide (string_of_list_byte (trim_padding (take 3 data))
                              = "BND"%string)).
  - unfold charsFrom, bytesFrom.
    rewrite decide_False by (unfold fits; simpl; lia). simpl.
    split; [discriminate|]. intros [_ Htag].
    apply (f_equal length) in Htag. rewrite length_take in Htag.
    change (length magic_tag) with 3%nat in Htag. lia.
Qed.

Lemma replace_keeps_valid
    (L : Layout) (s : SectionRange) (data new : list u8) (target : string) :
  (3 <= sec_offset s)%nat ->
  validateData L data target = Ok tt ->
  validateData L (replace s data new) target = Ok tt.
Proof.
  intros Hoff [Hsize Htag]%validateData_Ok_iff. apply validateData_Ok_iff.
  rewrite replace_length. split; [exact Hsize|].
  rewrite <- Htag. apply list_eq. intros i.
  destruct (decide (i < 3)%nat).
  - rewrite !lookup_take_lt by lia. apply replace_outside.
    unfold in_section. lia.
  - now rewrite !lookup_take_ge by lia.
Qed.

(** X7. With the owner identifier and the checksum field behind the
    three-byte tag, a working copy that validates still validates after
    [replaceSteamId] and after [recalculateChecksum], whether the call
    returns or throws and whatever the new identifier. *)
Theorem mutators_keep_valid
    (L : Layout) (this : SaveFile) (x : Z) (target : string) :
  (3 <= SteamIdOffset L)%nat ->
  (3 <= SaveHeaderChecksumOffset L)%nat ->
  validateData L (patchedSaveData this) target = Ok tt ->
  validateData L (patchedSaveData (snd (replaceSteamId L x this))) target
  = Ok tt
  /\ validateData L (patchedSaveData (snd (recalculateChecksum L this))) target
     = Ok tt.
Proof.
  intros Hid Hsum Hvalid. split.
  - unfold replaceSteamId, bind, get, lift, put, throw, default_data.
    destruct (steamId L _); [case_decide|]; simpl; auto.
    now apply replace_keeps_valid.
  - unfold recalculateChecksum, bind, get, lift, put, throw, ret, default_data.
    destruct (bytesFrom _ _); [|exact Hvalid].
    destruct (checksum L _); [case_decide|]; simpl; auto.
    now apply replace_keeps_valid.
Qed.

Lemma mutators_keep_valid_witness :
  validateData small_layout
    (patchedSaveData
       (snd (replaceSteamId small_layout 76561197960287931 small_save)))
    "Generated data" = Ok tt
  /\ validateData small_layout
       (patchedSaveData (snd (recalculateChecksum small_layout small_save)))
       "Generated data" = Ok tt.
Proof.
  apply mutators_keep_valid.
  - simpl. lia.
  - simpl. lia.
  - vm_compute. reflexivity.
Defined.

(** ** The whole patch *)




(** ** The other fields after a call *)

(** X9. A call of [replaceSteamId] or of [recalculateChecksum] leaves the
    flags of a slot Section that shares no byte with the field it writes
    as they were: [getActiveSlotIndex] on the working copy answers after
    the call what it answered before; and [replaceSteamId] leaves the
    stored checksum as it was when the two fields share no byte. *)
Theorem other_fields_kept (L : Layout) (this : SaveFile) (x : Z) :
  sections_disjoint (SteamIdSection L) (ActiveSection L) ->
  sections_disjoint (SaveHeaderChecksumSection L) (ActiveSection L) ->
  sections_disjoint (SteamIdSection L) (SaveHeaderChecksumSection L) ->
  getActiveSlotIndex L (patchedSaveData (snd (replaceSteamId L x this)))
  = getActiveSlotIndex L (patchedSaveData this)
  /\ getActiveSlotIndex L (patchedSaveData (snd (recalculateChecksum L this)))
     = getActiveSlotIndex L (patchedSaveData this)
  /\ checksum L (patchedSaveData (snd (replaceSteamId L x this)))
     = checksum L (patchedSaveData this).
Proof.
  intros Hid Hsum Hboth.
  assert (Hreplace :
            patchedSaveData (snd (replaceSteamId L x this)) = patchedSaveData this
            \/ patchedSaveData (snd (replaceSteamId L x this))
               = replace (SteamIdSection L) (patchedSaveData this)
                   (newSteamIdBytes L x)).
  { unfold replaceSteamId, bind, get, lift, put, throw, default_data.
    destruct (steamId L _); [case_decide|]; simpl; auto. }
  split; [|split].
  - unfold getActiveSlotIndex. destruct Hreplace as [->| ->]; [reflexivity|].
    now rewrite bytesFrom_replace_other by now apply sections_disjoint_in.
  - unfold recalculateChecksum, bind, get, lift, put, throw, ret, default_data.
    destruct (bytesFrom (SaveHeaderSection L) _); [|reflexivity].
    destruct (checksum L _); [case_decide|]; simpl; auto.
    unfold getActiveSlotIndex.
    now rewrite bytesFrom_replace_other by now apply sections_disjoint_in.
  - unfold checksum. destruct Hreplace as [->| ->]; [reflexivity|].
    now rewrite bytesFrom_replace_other by now apply sections_disjoint_in.
Qed.

Lemma other_fields_kept_witness :
  getActiveSlotIndex small_layout
    (patchedSaveData
       (snd (replaceSteamId small_layout 76561197960287931 small_save)))
  = Ok 2%nat.
Proof.
  rewrite (proj1 (other_fields_kept small_layout small_save
                    76561197960287931 ltac:(unfold sections_disjoint; simpl; lia)
                    ltac:(unfold sections_disjoint; simpl; lia)
                    ltac:(unfold sections_disjoint; simpl; lia))).
  vm_compute. reflexivity.
Defined.

(** * Properties of [arguments.h] *)

(** ** Looking up the value of an argument *)

Lemma find_distance_first (pre post : list string) (argumentName : string) :
  argumentName ∉ pre ->
  list_find (fun a => a = argumentName) (pre ++ argumentName :: post)
  = Some (length pre, argumentName).
Proof.
  intros Hpre. apply list_find_Some. split; [|split; [reflexivity|]].
  - now rewrite list_lookup_middle.
  - intros j y Hj Hlt ->.
    rewrite lookup_app_l in Hj by exact Hlt.
    apply Hpre. eapply list_elem_of_lookup_2. exact Hj.
Qed.

Lemma isArgued_first (pre post : list string) (argumentName : string) :
  argumentName ∉ pre ->
  arguments.isArgued (pre ++ argumentName :: post) argumentName = true.
Proof.
  intros Hpre. unfold arguments.isArgued. now rewrite find_distance_first.
Qed.

Lemma getNextArgument_split
    (pre post : list string) (argumentName v : string) :
  argumentName ∉ pre ->
  arguments.getNextArgument (pre ++ argumentName :: v :: post) argumentName
  = arguments.Returned v.
Proof.
  intros Hpre. unfold arguments.getNextArgument, arguments.find_distance.
  rewrite find_distance_first by exact Hpre.
  rewrite decide_False by (rewrite length_app; simpl; lia).
  f_equal. apply list_lookup_total_correct.
  rewrite lookup_app_r by lia.
  now replace (length pre + 1 - length pre)%nat with 1%nat by lia.
Qed.

Lemma getNextArgument_last (pre : list string) (argumentName : string) :
  argumentName ∉ pre ->
  arguments.getNextArgument (pre ++ [argumentName]) argumentName
  = arguments.Thrown ("Missing argument value for '" +:+ argumentName +:+ "'").
Proof.
  intros Hpre. unfold arguments.getNextArgument, arguments.find_distance.
  rewrite find_distance_first by exact Hpre.
  now rewrite decide_True by (rewrite length_app; simpl; lia).
Qed.

(** X10. A name that occurs among the raw arguments with a string after
    its first occurrence is argued, and [getNextArgument] returns that
    string, whatever the string is (the name of another argument, the name
    itself) and whatever comes after it, later occurrences of the name
    included. *)
Theorem getNextArgument_after_first
    (raw pre post : list string) (argumentName v : string) :
  raw = pre ++ argumentName :: v :: post ->
  argumentName ∉ pre ->
  arguments.isArgued raw argumentName = true
  /\ arguments.getNextArgument raw argumentName = arguments.Returned v.
Proof.
  intros -> Hpre. split.
  - now apply isArgued_first.
  - now apply getNextArgument_split.
Qed.

Lemma getNextArgument_after_first_witness :
  arguments.getNextArgument
    ["savepatcher"; "--from"; "--to"; "b.sl2"; "--from"; "a.sl2"]%string
    "--from"
  = arguments.Returned "--to"%string.
Proof.
  apply (getNextArgument_after_first _ ["savepatcher"%string]
           ["b.sl2"; "--from"; "a.sl2"]%string).
  - reflexivity.
  - intros Hin. apply list_elem_of_singleton in Hin. discriminate Hin.
Defined.

(** X11. [getNextArgument] throws, with the missing-value message naming
    the argument, exactly when the name is not among the raw arguments or
    its first occurrence is their last element; otherwise it returns, and
    what it returns follows the first occurrence of the name. *)
Theorem getNextArgument_cases (raw : list string) (argumentName : string) :
  match arguments.getNextArgument raw argumentName with
  | arguments.Returned v =>
      exists pre post,
        raw = pre ++ argumentName :: v :: post /\ argumentName ∉ pre
  | arguments.Thrown message =>
      message = ("Missing argument value for '" +:+ argumentName +:+ "'")
      /\ (argumentName ∉ raw
          \/ exists pre, raw = pre ++ [argumentName] /\ argumentName ∉ pre)
  end.
Proof.
  unfold arguments.getNextArgument, arguments.find_distance.
  destruct (list_find _ raw) as [[i x]|] eqn:Hfind.
  - apply list_find_Some in Hfind as (Hi & -> & Hfirst).
    assert (Hpre : argumentName ∉ take i raw).
    { intros [j Hj]%list_elem_of_lookup.
      apply lookup_take_Some in Hj as [Hj Hlt].
      now apply (Hfirst j argumentName). }
    pose proof (take_drop_middle raw i argumentName Hi) as Hsplit.
    case_decide as Hlen.
    + split; [reflexivity|]. right. exists (take i raw).
      split; [|exact Hpre]. rewrite <- Hsplit at 1.
      now rewrite (drop_ge raw (S i)) by lia.
    + destruct (drop (S i) raw) as [|v post] eqn:Hdrop.
      { apply (f_equal length) in Hdrop. rewrite length_drop in Hdrop.
        simpl in Hdrop. lia. }
      assert (Hv : raw !!! (i + 1)%nat = v).
      { apply list_lookup_total_correct.
        replace (i + 1)%nat with (S i + 0)%nat by lia.
        now rewrite <- lookup_drop, Hdrop. }
      rewrite Hv. exists (take i raw), post. split; [|exact Hpre].
      now rewrite Hsplit.
  - apply list_find_None in Hfind.
    rewrite decide_True by lia. split; [reflexivity|]. left.
    intros Hin. rewrite Forall_forall in Hfind. now apply (Hfind _ Hin).
Qed.

(** ** Adding and finding arguments *)

Section ParserProperties.

Import arguments.

Context (path_exists : string -> bool) (generic_string : string -> string)
        (exception_is_std : bool).

Local Abbreviation add :=
  (arguments.add path_exists generic_string exception_is_std).
Local Abbreviation parse :=
  (arguments.parse path_exists generic_string exception_is_std).

(** [parse] writes the value and nothing else. *)
Lemma parse_fields (t : ArgType) (raw : list string) (arg arg' : Argument t) :
  parse t raw arg = Returned arg' ->
  name arg' = name arg /\ description arg' = description arg
  /\ briefDescription arg' = briefDescription arg /\ set arg' = set arg.
Proof.
  destruct t; simpl.
  - unfold parse_int. destruct (getNextArgument raw _); [|now destruct exception_is_std].
    destruct (stoi a); [|discriminate]. intros [= <-]. auto.
  - unfold parse_bool. intros [= <-]. auto.
  - unfold parse_string_view. destruct (getNextArgument raw _); [|discriminate].
    intros [= <-]. auto.
  - unfold parse_path. destruct (getNextArgument raw _); [|discriminate].
    destruct (negb _); [discriminate|]. intros [= <-]. auto.
Qed.

(** What [add] has done when it did not throw: one element more, a copy
    of the argument as the caller now has it, under its old name. *)
Lemma add_returned (t : ArgType) (this : ArgumentParser) (arg : Argument t) :
  thrown (add this arg) = None ->
  argumentContainer (parser (add this arg))
  = argumentContainer this ++ [existT t (argument (add this arg))]
  /\ name (argument (add this arg)) = name arg
  /\ rawArguments (parser (add this arg)) = rawArguments this.
Proof.
  unfold arguments.add. simpl.
  destruct (isArgued _ _); [|auto].
  destruct (parse t _ arg) as [arg'|message] eqn:Hparse; [|discriminate].
  intros _. simpl. apply parse_fields in Hparse as (-> & _). auto.
Qed.

Lemma cast_entry_same (t : ArgType) (arg : Argument t) :
  cast_entry t (existT t arg) = Some arg.
Proof.
  unfold cast_entry. destruct (decide (t = t)) as [E|]; [|congruence].
  now rewrite (proof_irrel E eq_refl).
Qed.

(** X12. After an [add] that did not throw, [find] at the argument's type
    and name returns the argument as the caller now holds it, set flag and
    value included, provided no element of that name was in the container
    before; and [find] for any other name returns what it returned before
    the call. *)
Theorem find_after_add
    (t : ArgType) (this : ArgumentParser) (arg : Argument t) :
  thrown (add this arg) = None ->
  (Forall (fun e => entry_name e <> name arg) (argumentContainer this) ->
   find t (parser (add this arg)) (name arg) = Some (argument (add this arg)))
  /\ (forall t' n, n <> name arg ->
        find t' (parser (add this arg)) n = find t' this n).
Proof.
  intros (Hcontainer & Hname & _)%add_returned. split.
  - intros Hfresh. unfold find. rewrite Hcontainer.
    rewrite (list_find_app_r _ _ _) by now apply list_find_None.
    simpl. rewrite decide_True by exact Hname. simpl. apply cast_entry_same.
  - intros t' n Hn. unfold find. rewrite Hcontainer.
    destruct (list_find _ (argumentContainer this)) as [[i e]|] eqn:Hfind.
    + now rewrite (list_find_app_l _ _ _ _ _ Hfind).
    + rewrite (list_find_app_r _ _ _ Hfind). simpl.
      rewrite decide_False; [reflexivity|]. unfold entry_name. simpl.
      congruence.
Qed.

(** X13. The first element added under a name is the one [find] returns:
    after an element of that name is in the container, adding another
    argument of the same name, of any type, does not change what [find]
    returns for it. *)
Theorem find_first_added
    (t t' : ArgType) (this : ArgumentParser) (arg : Argument t) :
  Exists (fun e => entry_name e = name arg) (argumentContainer this) ->
  find t' (parser (add this arg)) (name arg) = find t' this (name arg).
Proof.
  intros Hold. unfold find.
  destruct (list_find _ (argumentContainer this)) as [[i e]|] eqn:Hfind.
  - destruct (thrown (add this arg)) eqn:Hthrown.
    + revert Hthrown. unfold arguments.add. simpl.
      destruct (isArgued _ _); [|discriminate].
      destruct (parse t _ arg); [discriminate|]. simpl. now rewrite Hfind.
    + apply add_returned in Hthrown as (-> & _).
      now rewrite (list_find_app_l _ _ _ _ _ Hfind).
  - apply list_find_None in Hfind. apply Exists_exists in Hold as (e & He & Hn).
    rewrite Forall_forall in Hfind. now destruct (Hfind e He).
Qed.

Lemma add_thrown_state
    (t : ArgType) (this : ArgumentParser) (arg : Argument t)
    (message : string) :
  thrown (add this arg) = Some message ->
  parser (add this arg) = describe this arg
  /\ argument (add this arg) = arg
  /\ isArgued (rawArguments this) (name arg) = true
  /\ t <> TBool.
Proof.
  unfold arguments.add. simpl.
  destruct (isArgued _ _) eqn:Hargued; [|discriminate].
  destruct (parse t _ arg) as [arg'|m] eqn:Hparse; [discriminate|].
  intros _. simpl. repeat split; auto.
  intros ->. discriminate Hparse.
Qed.

(** X14. An [add] that throws has put nothing into the container and has
    left the caller's argument as it was, but the two usage texts already
    carry the argument's lines; it happens only for a name that is among
    the raw arguments, and never for a [bool] argument. *)
Theorem add_thrown
    (t : ArgType) (this : ArgumentParser) (arg : Argument t)
    (message : string) :
  thrown (add this arg) = Some message ->
  argumentContainer (parser (add this arg)) = argumentContainer this
  /\ argument (add this arg) = arg
  /\ usageDescription (parser (add this arg))
     = usageDescription (describe this arg)
  /\ briefUsageDescription (parser (add this arg))
     = briefUsageDescription (describe this arg)
  /\ isArgued (rawArguments this) (name arg) = true
  /\ t <> TBool.
Proof.
  intros (-> & -> & Hargued & Ht)%add_thrown_state.
  repeat split; auto.
Qed.

(** X15. A [bool] argument is a flag: [add] never throws on it, and for
    a fresh flag (not set, false) whose name is not yet in the container,
    [find] afterwards returns an argument whose set flag and value both
    say whether the name is among the raw arguments. *)
Theorem find_flag (this : ArgumentParser) (arg : Argument TBool) :
  set arg = false -> value arg = false ->
  Forall (fun e => entry_name e <> name arg) (argumentContainer this) ->
  thrown (add this arg) = None
  /\ exists found,
       find TBool (parser (add this arg)) (name arg) = Some found
       /\ set found = isArgued (rawArguments this) (name arg)
       /\ value found = isArgued (rawArguments this) (name arg).
Proof.
  intros Hset Hvalue Hfresh.
  assert (Hthrown : thrown (add this arg) = None).
  { unfold arguments.add. simpl. now destruct (isArgued _ _). }
  split; [exact Hthrown|]. exists (argument (add this arg)).
  pose proof (add_returned _ _ _ Hthrown) as (Hcontainer & Hname & _).
  split.
  - unfold find. rewrite Hcontainer.
    rewrite (list_find_app_r _ _ _) by now apply list_find_None.
    simpl. rewrite decide_True by exact Hname. reflexivity.
  - unfold arguments.add. simpl. destruct (isArgued _ _); simpl; auto.
Qed.

End ParserProperties.

(** ** [std::stoi] and decimal text *)

Section Stoi.

Import arguments.

Lemma digit_value_char (d : N) :
  (d < 10)%N ->
  digit_value (pretty_N_char d) = Some (Z.of_N d)
  /\ isspace (pretty_N_char d) = false
  /\ pretty_N_char d <> "-"%char /\ pretty_N_char d <> "+"%char.
Proof.
  intros Hd.
  assert (Hcases : (d = 0 \/ d = 1 \/ d = 2 \/ d = 3 \/ d = 4 \/ d = 5
                    \/ d = 6 \/ d = 7 \/ d = 8 \/ d = 9)%N) by lia.
  repeat (destruct Hcases as [->|Hcases]); try subst d;
    (split; [reflexivity|split; [reflexivity|split; discriminate]]).
Qed.

Lemma leading_digits_text (ds : list N) (rest : string) :
  small_digits ds ->
  leading_digits (digits_text ds rest) = map Z.of_N ds ++ leading_digits rest.
Proof.
  induction 1 as [|d ds Hd _ IH]; [reflexivity|].
  simpl. destruct (digit_value_char d Hd) as (-> & _). now rewrite IH.
Qed.

Lemma decimal_value_snoc (ds : list Z) (d : Z) :
  decimal_value (ds ++ [d]) = 10 * decimal_value ds + d.
Proof. unfold decimal_value. now rewrite fold_left_app. Qed.

Lemma pretty_N_go_app (x : N) (s rest : string) :
  pretty_N_go x s +:+ rest = pretty_N_go x (s +:+ rest).
Proof.
  revert s. induction (N.lt_wf_0 x) as [x _ IH]. intros s.
  destruct (decide (x = 0)%N) as [->|Hx]; [now rewrite !pretty_N_go_0|].
  rewrite (pretty_N_go_step x s), (pretty_N_go_step x (s +:+ rest)) by lia.
  rewrite IH by (apply N.div_lt; lia). reflexivity.
Qed.

(** The printer puts the digits of [x] in front of what it is given. *)
Lemma pretty_N_go_digits (x : N) (ds : list N) (rest : string) :
  exists ds',
    small_digits ds'
    /\ pretty_N_go x (digits_text ds rest) = digits_text (ds' ++ ds) rest
    /\ digits_value ds' = Z.of_N x
    /\ ((0 < x)%N -> ds' <> []).
Proof.
  revert ds. induction (N.lt_wf_0 x) as [x _ IH]. intros ds.
  destruct (decide (x = 0)%N) as [->|Hx].
  { exists []. rewrite pretty_N_go_0. repeat split; [constructor|lia]. }
  rewrite pretty_N_go_step by lia.
  destruct (IH (x `div` 10)%N ltac:(apply N.div_lt; lia) ((x `mod` 10)%N :: ds))
    as (ds' & Hsmall & Htext & Hvalue & _).
  exists (ds' ++ [(x `mod` 10)%N]). split; [|split; [|split]].
  - apply Forall_app. split; [exact Hsmall|].
    constructor; [|constructor]. apply N.mod_lt. lia.
  - change (String (pretty_N_char (x `mod` 10)) (digits_text ds rest))
      with (digits_text ((x `mod` 10)%N :: ds) rest).
    rewrite Htext. now rewrite <- app_assoc.
  - unfold digits_value in *. rewrite map_app. simpl.
    rewrite decimal_value_snoc, Hvalue.
    rewrite (N.div_mod x 10) at 3 by lia. lia.
  - intros _ Hnil. now apply app_eq_nil in Hnil as [_ ?].
Qed.

Lemma pretty_positive_digits (p : positive) (rest : string) :
  exists d ds,
    (d < 10)%N /\ small_digits ds
    /\ pretty (N.pos p) +:+ rest
       = String (pretty_N_char d) (digits_text ds rest)
    /\ digits_value (d :: ds) = Z.pos p.
Proof.
  unfold pretty, pretty_N. rewrite decide_False by discriminate.
  rewrite pretty_N_go_app. simpl.
  destruct (pretty_N_go_digits (N.pos p) [] rest)
    as (ds' & Hsmall & Htext & Hvalue & Hne).
  rewrite app_nil_r in Htext. simpl in Htext.
  destruct ds' as [|d ds]; [now destruct Hne|].
  apply Forall_cons in Hsmall as [Hd Hsmall].
  exists d, ds. auto.
Qed.

(** A run of digits that no digit follows reads as its value, when that
    is an [int]. *)
Lemma stoi_digits (negative : bool) (d : N) (ds : list N) (rest : string) :
  (d < 10)%N -> small_digits ds -> leading_digits rest = [] ->
  let n := if negative then - digits_value (d :: ds)
           else digits_value (d :: ds) in
  stoi (if negative
        then String "-" (String (pretty_N_char d) (digits_text ds rest))
        else String (pretty_N_char d) (digits_text ds rest))
  = if decide (INT_MIN <= n <= INT_MAX) then Some n else None.
Proof.
  intros Hd Hds Hrest n. subst n.
  destruct (digit_value_char d Hd) as (Hdigit & Hspace & Hminus & Hplus).
  assert (Hlead : leading_digits (String (pretty_N_char d) (digits_text ds rest))
                  = map Z.of_N (d :: ds)).
  { change (String (pretty_N_char d) (digits_text ds rest))
      with (digits_text (d :: ds) rest).
    rewrite leading_digits_text by now constructor.
    rewrite Hrest. apply app_nil_r. }
  unfold stoi. destruct negative.
  - simpl skip_space. unfold take_sign. rewrite decide_True by reflexivity.
    rewrite Hlead. reflexivity.
  - unfold skip_space. rewrite Hspace. fold skip_space.
    unfold take_sign. rewrite !decide_False by assumption.
    rewrite Hlead. reflexivity.
Qed.

(** [std::stoi] reads the decimal text of every [int] back as that [int],
    stops at the first character that is not a digit, and refuses the
    decimal text of a number that is not an [int]. *)
Lemma stoi_pretty (n : Z) (rest : string) :
  leading_digits rest = [] ->
  stoi (pretty n +:+ rest)
  = if decide (INT_MIN <= n <= INT_MAX) then Some n else None.
Proof.
  intros Hrest. destruct n as [|p|p].
  - apply (stoi_digits false 0%N [] rest); [lia|constructor|exact Hrest].
  - change (pretty (Z.pos p)) with (pretty (N.pos p)).
    destruct (pretty_positive_digits p rest) as (d & ds & Hd & Hds & -> & Hv).
    rewrite <- Hv.
    apply (stoi_digits false d ds rest Hd Hds Hrest).
  - change (pretty (Z.neg p)) with ("-" +:+ pretty (N.pos p)).
    change (("-" +:+ pretty (N.pos p)) +:+ rest)
      with (String "-" (pretty (N.pos p) +:+ rest)).
    destruct (pretty_positive_digits p rest) as (d & ds & Hd & Hds & -> & Hv).
    change (Z.neg p) with (- Z.pos p). rewrite <- Hv.
    apply (stoi_digits true d ds rest Hd Hds Hrest).
Qed.

(** A text that starts with no white space, sign or digit is refused. *)
Lemma stoi_no_number (c : ascii) (rest : string) :
  isspace c = false -> c <> "-"%char -> c <> "+"%char ->
  digit_value c = None ->
  stoi (String c rest) = None.
Proof.
  intros Hspace Hminus Hplus Hdigit. unfold stoi.
  unfold skip_space. rewrite Hspace. fold skip_space.
  unfold take_sign. rewrite !decide_False by assumption.
  simpl. now rewrite Hdigit.
Qed.

End Stoi.

(** ** The value an argument is given *)

Section ParserValues.

Import arguments.

Context (path_exists : string -> bool) (generic_string : string -> string)
        (exception_is_std : bool).

Local Abbreviation add :=
  (arguments.add path_exists generic_string exception_is_std).

(** X16. For a [std::string_view] argument whose name is among the raw
    arguments with a string after its first occurrence, [add] returns and
    the caller's argument comes back set, with that string as its value,
    also when the string is the name of another argument. *)
Theorem add_string_view
    (this : ArgumentParser) (arg : Argument TStringView)
    (pre post : list string) (v : string) :
  rawArguments this = pre ++ name arg :: v :: post ->
  name arg ∉ pre ->
  thrown (add this arg) = None
  /\ argument (add this arg)
     = with_set true (with_value (t := TStringView) v arg).
Proof.
  intros Hraw Hpre. unfold arguments.add. simpl. rewrite Hraw.
  rewrite isArgued_first by exact Hpre.
  unfold parse_string_view.
  rewrite (getNextArgument_split pre post (name arg) v Hpre).
  auto.
Qed.


(** X18. For an [int] argument followed by the decimal text of a number
    [n] and then, in the same string, by anything that does not start with
    a digit: when [n] is an [int], [add] returns and the argument comes
    back set with value [n]; when it is not, [add] throws the
    invalid-value message and the argument is left as it was. *)
Theorem add_int
    (this : ArgumentParser) (arg : Argument TInt)
    (pre post : list string) (n : Z) (rest : string) :
  rawArguments this = pre ++ name arg :: (pretty n +:+ rest) :: post ->
  name arg ∉ pre ->
  leading_digits rest = [] ->
  thrown (add this arg)
  = (if decide (INT_MIN <= n <= INT_MAX) then None
     else Some ("Invalid value for '" +:+ name arg +:+ "'"))
  /\ argument (add this arg)
     = if decide (INT_MIN <= n <= INT_MAX)
       then with_set true (with_value (t := TInt) n arg)
       else arg.
Proof.
  intros Hraw Hpre Hrest. unfold arguments.add. simpl. rewrite Hraw.
  rewrite isArgued_first by exact Hpre.
  unfold parse_int.
  rewrite (getNextArgument_split pre post (name arg) _ Hpre).
  rewrite stoi_pretty by exact Hrest.
  case_decide; auto.
Qed.

(** X19. An [int] argument followed by a string that is empty, or starts
    with a character that is not white space, a sign or a digit, makes
    [add] throw the invalid-value message naming the argument. *)
Theorem add_int_not_a_number
    (this : ArgumentParser) (arg : Argument TInt)
    (pre post : list string) (v : string) :
  rawArguments this = pre ++ name arg :: v :: post ->
  name arg ∉ pre ->
  match v with
  | EmptyString => True
  | String c _ =>
      isspace c = false /\ c <> "-"%char /\ c <> "+"%char
      /\ digit_value c = None
  end ->
  thrown (add this arg) = Some ("Invalid value for '" +:+ name arg +:+ "'").
Proof.
  intros Hraw Hpre Hv. unfold arguments.add. simpl. rewrite Hraw.
  rewrite isArgued_first by exact Hpre.
  unfold parse_int.
  rewrite (getNextArgument_split pre post (name arg) v Hpre).
  destruct v as [|c tail]; [reflexivity|].
  destruct Hv as (? & ? & ? & ?). now rewrite stoi_no_number.
Qed.

(** X20. When the first occurrence of the name is the last raw argument,
    [add] throws for every type but [bool]: the missing-value message for
    a string or a path, and for an [int] the invalid-value message if the
    handler of [parse] catches the exception and the missing-value message
    if it does not. *)
Theorem add_value_missing
    (t : ArgType) (this : ArgumentParser) (arg : Argument t)
    (pre : list string) :
  rawArguments this = pre ++ [name arg] ->
  name arg ∉ pre ->
  thrown (add this arg)
  = match t with
    | TBool => None
    | TInt =>
        if exception_is_std
        then Some ("Invalid value for '" +:+ name arg +:+ "'")
        else Some ("Missing argument value for '" +:+ name arg +:+ "'")
    | TStringView | TPath =>
        Some ("Missing argument value for '" +:+ name arg +:+ "'")
    end.
Proof.
  intros Hraw Hpre. unfold arguments.add. simpl. rewrite Hraw.
  rewrite isArgued_first by exact Hpre.
  destruct t; simpl;
    unfold parse_int, parse_bool, parse_string_view, parse_path;
    rewrite ?getNextArgument_last by exact Hpre;
    try destruct exception_is_std; reflexivity.
Qed.

(** ** Adding a list of arguments *)

Lemma add_all_cons_returned
    (t : ArgType) (this : ArgumentParser) (arg : Argument t)
    (rest : list (Argument t)) :
  thrown (add this arg) = None ->
  add_all path_exists generic_string exception_is_std this (arg :: rest)
  = add_all path_exists generic_string exception_is_std
      (parser (add this arg)) rest.
Proof. intros Hthrown. simpl. now rewrite Hthrown. Qed.

(** X21. [add] of a list adds its elements in order and stops at the
    first one whose [add] throws.  When nothing is thrown, every element
    was added without a throw, each to the parser its predecessors left,
    and the container holds the names it held followed by the names of
    the whole list.  When something is thrown, the list splits into the
    elements before, all added without a throw, the element whose [add]
    threw that message, and the rest, which is not touched: the parser is
    the one that throwing [add] left, and the container holds the old
    names followed by the names of the elements before. *)
Theorem add_all_names
    (t : ArgType) (this : ArgumentParser) (args : list (Argument t)) :
  let add_all := add_all path_exists generic_string exception_is_std in
  match fst (add_all this args) with
  | None =>
      map entry_name (argumentContainer (snd (add_all this args)))
      = map entry_name (argumentContainer this) ++ map name args
      /\ forall pre arg post,
           args = pre ++ arg :: post ->
           fst (add_all this pre) = None
           /\ thrown (add (snd (add_all this pre)) arg) = None
  | Some message =>
      exists pre arg post,
        args = pre ++ arg :: post
        /\ fst (add_all this pre) = None
        /\ thrown (add (snd (add_all this pre)) arg) = Some message
        /\ snd (add_all this args) = parser (add (snd (add_all this pre)) arg)
        /\ map entry_name (argumentContainer (snd (add_all this args)))
           = map entry_name (argumentContainer this) ++ map name pre
  end.
Proof.
  intros add_all. subst add_all. revert this.
  induction args as [|a rest IH]; intros this.
  - simpl. rewrite app_nil_r. split; [reflexivity|].
    intros [|? ?] ? ? Hsplit; discriminate Hsplit.
  - destruct (thrown (add this a)) as [message|] eqn:Hthrown.
    + simpl. rewrite Hthrown. simpl.
      exists [], a, rest. simpl. rewrite app_nil_r.
      apply (add_thrown_state path_exists generic_string exception_is_std)
        in Hthrown as Hstate. destruct Hstate as (Hparser & _).
      repeat split; auto. now rewrite Hparser.
    + rewrite add_all_cons_returned by exact Hthrown.
      pose proof (add_returned path_exists generic_string exception_is_std
                    _ _ _ Hthrown) as (Hcontainer & Hname & _).
      assert (Hnames :
        map entry_name (argumentContainer (parser (add this a)))
        = map entry_name (argumentContainer this) ++ [name a]).
      { rewrite Hcontainer, map_app. simpl. unfold entry_name at 2. simpl.
        now rewrite Hname. }
      specialize (IH (parser (add this a))).
      destruct (fst (arguments.add_all _ _ _ (parser (add this a)) rest))
        as [message|].
      * destruct IH as (pre & arg & post & -> & Hpre & Harg & Hsnd & Hcont).
        exists (a :: pre), arg, post.
        rewrite !add_all_cons_returned by exact Hthrown.
        repeat split; auto.
        rewrite Hcont, Hnames, <- app_assoc. reflexivity.
      * destruct IH as (Hcont & Hall). split.
        { rewrite Hcont, Hnames, <- app_assoc. reflexivity. }
        intros [|a' pre] arg post Hsplit; simpl in Hsplit.
        { injection Hsplit as <- _. simpl. auto. }
        injection Hsplit as <- ->.
        rewrite !add_all_cons_returned by exact Hthrown.
        now apply (Hall pre arg post).
Qed.

End ParserValues.

(** ** The parser on a command line *)

Lemma not_in_prefix (x : string) (pre : list string) :
  forallb (fun y => negb (String.eqb y x)) pre = true -> x ∉ pre.
Proof.
  intros Hall Hin. apply list_elem_of_In in Hin.
  rewrite forallb_forall in Hall. specialize (Hall x Hin).
  now rewrite String.eqb_refl in Hall.
Qed.

Lemma find_after_add_witness :
  arguments.find arguments.TPath
    (arguments.parser (demo_add demo_parser
                         (arguments.Argument1 arguments.TPath "--from")))
    "--from"
  = Some (arguments.mkArgument (t := arguments.TPath)
            "--from" "" "" true "in.sl2"%string).
Proof.
  refine (proj1 (find_after_add demo_exists demo_generic_string true arguments.TPath demo_parser
                   (arguments.Argument1 arguments.TPath "--from") _) _).
  - reflexivity.
  - constructor.
Defined.

Lemma find_first_added_witness :
  let this := arguments.parser
                (demo_add demo_parser
                   (arguments.Argument1 arguments.TStringView "--to")) in
  arguments.find arguments.TStringView
    (arguments.parser (demo_add this
                         (arguments.Argument1 arguments.TBool "--to")))
    "--to"
  = arguments.find arguments.TStringView this "--to".
Proof.
  intros this.
  apply (find_first_added demo_exists demo_generic_string true arguments.TBool
           arguments.TStringView this
           (arguments.Argument1 arguments.TBool "--to")).
  apply Exists_cons_hd. reflexivity.
Defined.

Lemma add_thrown_witness :
  arguments.argumentContainer
    (arguments.parser (demo_add demo_parser
                         (arguments.Argument2 arguments.TInt "--id" "the id")))
  = []
  /\ arguments.usageDescription
       (arguments.parser (demo_add demo_parser
                            (arguments.Argument2 arguments.TInt "--id" "the id")))
     = ("  --id: the id" +:+ arguments.newline).
Proof.
  destruct (add_thrown demo_exists demo_generic_string true arguments.TInt demo_parser
              (arguments.Argument2 arguments.TInt "--id" "the id")
              "Invalid value for '--id'" eq_refl)
    as (Hcontainer & _ & Husage & _).
  split; [exact Hcontainer|exact Husage].
Defined.

Lemma add_string_view_witness :
  arguments.argument
    (demo_add demo_parser (arguments.Argument1 arguments.TStringView "--to"))
  = arguments.mkArgument (t := arguments.TStringView)
      "--to" "" "" true "out.sl2"%string.
Proof.
  refine (proj2 (add_string_view demo_exists demo_generic_string true demo_parser
                   (arguments.Argument1 arguments.TStringView "--to")
                   ["savepatcher"; "--from"; "in.sl2"; "--level"; "42"]%string
                   ["--id"%string] "out.sl2" eq_refl _)).
  apply not_in_prefix. reflexivity.
Defined.


Lemma add_int_witness :
  arguments.argument
    (demo_add demo_parser (arguments.Argument1 arguments.TInt "--level"))
  = arguments.mkArgument (t := arguments.TInt) "--level" "" "" true 42.
Proof.
  refine (proj2 (add_int demo_exists demo_generic_string true demo_parser
                   (arguments.Argument1 arguments.TInt "--level")
                   ["savepatcher"; "--from"; "in.sl2"]%string
                   ["--to"; "out.sl2"; "--id"]%string 42 "" eq_refl _ eq_refl)).
  apply not_in_prefix. reflexivity.
Defined.

Lemma add_int_not_a_number_witness :
  arguments.thrown
    (demo_add demo_parser (arguments.Argument1 arguments.TInt "--to"))
  = Some "Invalid value for '--to'"%string.
Proof.
  refine (add_int_not_a_number demo_exists demo_generic_string true demo_parser
            (arguments.Argument1 arguments.TInt "--to")
            ["savepatcher"; "--from"; "in.sl2"; "--level"; "42"]%string
            ["--id"%string] "out.sl2" eq_refl _ _).
  - apply not_in_prefix. reflexivity.
  - repeat split; discriminate.
Defined.

Lemma add_value_missing_witness :
  arguments.thrown
    (demo_add demo_parser (arguments.Argument1 arguments.TStringView "--id"))
  = Some "Missing argument value for '--id'"%string.
Proof.
  refine (add_value_missing demo_exists demo_generic_string true arguments.TStringView demo_parser
            (arguments.Argument1 arguments.TStringView "--id")
            ["savepatcher"; "--from"; "in.sl2"; "--level"; "42"; "--to";
             "out.sl2"]%string eq_refl _).
  apply not_in_prefix. reflexivity.
Defined.

Lemma find_flag_witness :
  exists found,
    arguments.find arguments.TBool
      (arguments.parser (demo_add demo_parser
                           (arguments.Argument1 arguments.TBool "--id")))
      "--id"
    = Some found
    /\ arguments.set found = true /\ arguments.value found = true.
Proof.
  destruct (find_flag demo_exists demo_generic_string true demo_parser
              (arguments.Argument1 arguments.TBool "--id")
              eq_refl eq_refl ltac:(constructor))
    as (_ & found & Hfind & Hset & Hvalue).
  exists found. split; [exact Hfind|]. split; assumption.
Defined.
